(** * Reaction widgets of the chat UI components: emoji picker, throttle, gesture controller

    The development embeds three pieces of the repository:

    - [EmojiPicker]: the component of [src/components/molecules/EmojiPicker.tsx]
      (palette, rendered element tree, click dispatch);
    - [Throttle]: the [useThrottle] replacement that the RoomReaction test-suite
      installs (a [Map] keyed by the wrapped function, read and written by the
      wrapper on every invocation);
    - [RoomReaction]: the gesture controller, whose component file is not part
      of the available sources and is therefore described from the
      specification (section 4.4), with the test-suite as a cross-check;
    - [Stories]: the message generators of
      [src/stories/chat-message-list.stories.tsx] (the [Default] story and the
      [AutoScrollComparison] story with its interval and its toggle). *)

From stdpp Require Import gmap strings list.
From stdpp Require Import pretty.

Open Scope string_scope.
Open Scope list_scope.
Open Scope Z_scope.
Set Warnings "-register-all,-clear-no-such-hyp".

(* ===================================================================== *)
(** ** The emoji picker *)
(* ===================================================================== *)

Module EmojiPicker.

(** [position: { top: number; left: number }] *)
Record Position := { top : Z; left : Z }.

(** [EmojiPickerProps].  The two callbacks are opaque to the component: all it
    can do with them is invoke them, so an invocation is recorded as a
    [Callback] value instead of being carried in the record. *)
Record EmojiPickerProps := { isOpen : bool; position : Position }.

Inductive Callback :=
| OnClose
| OnEmojiSelect (emoji : string).

#[global] Instance Callback_eq_dec : EqDecision Callback.
Proof. solve_decision. Defined.

(** [const emojis = [...]], in source order. *)
Definition emojis : list string :=
  [ "👍"; "❤️"; "😊"; "😂"; "😱"; "😢"; "🏃"; "💯"; "🔥"; "👏";
    "☀️"; "🎉"; "🌈"; "🙌"; "💡"; "🎶"; "😎"; "🤔"; "🧠"; "🍕";
    "🌟"; "🚀"; "🐶"; "🐱"; "🌍"; "📚"; "🎯"; "🥳"; "🤖"; "🎨";
    "🧘"; "🏆"; "💥"; "💖"; "😇"; "😜"; "🌸"; "💬"; "📸"; "🛠️";
    "⏰"; "🧩"; "🗺️" ].

(** The attributes the component sets on its elements. *)
Record Attrs := {
  key : option string;
  className : string;
  style : option Position;
  role : option string;
  ariaLabel : option string;
  ariaHidden : bool;
  title : option string;
  onClick : option Callback
}.

(** A rendered element tree: elements with children, and text leaves. *)
Inductive Node :=
| Element (tag : string) (attrs : Attrs) (children : list Node)
| Text (content : string).

Definition attrs_of (n : Node) : option Attrs :=
  match n with Element _ a _ => Some a | Text _ => None end.

Definition children_of (n : Node) : list Node :=
  match n with Element _ _ c => c | Text _ => [] end.

(** The [onClick] listeners of a node, as the callback invocations they make. *)
Definition listeners (n : Node) : list Callback :=
  match n with
  | Element _ a _ => match onClick a with Some c => [c] | None => [] end
  | Text _ => []
  end.

(** [<div className="fixed inset-0 z-40" onClick={onClose} aria-hidden="true" />] *)
Definition backdrop : Node :=
  Element "div"
    {| key := None; className := "fixed inset-0 z-40"; style := None;
       role := None; ariaLabel := None; ariaHidden := true; title := None;
       onClick := Some OnClose |}
    [].

(** One [<button>] of [emojis.map((emoji) => ...)]. *)
Definition emoji_button (emoji : string) : Node :=
  Element "button"
    {| key := Some emoji;
       className := "w-8 h-8 flex items-center justify-center text-lg hover:bg-gray-100 dark:hover:bg-gray-700 rounded transition-colors";
       style := None; role := None;
       ariaLabel := Some ("Emoji " +:+ emoji);
       ariaHidden := false;
       title := Some emoji;
       onClick := Some (OnEmojiSelect emoji) |}
    [Text emoji].

(** The positioned [<div role="dialog" aria-label="Emoji picker">]. *)
Definition panel (pos : Position) : Node :=
  Element "div"
    {| key := None;
       className := "fixed z-50 bg-white dark:bg-gray-800 border border-gray-200 dark:border-gray-600 rounded-lg shadow-lg p-3 grid grid-cols-4 gap-2";
       style := Some pos;
       role := Some "dialog"; ariaLabel := Some "Emoji picker";
       ariaHidden := false; title := None; onClick := None |}
    (emoji_button <$> emojis).

(** The component: [null] when closed, otherwise the fragment
    [<> backdrop, panel </>]. *)
Definition EmojiPicker (props : EmojiPickerProps) : option (list Node) :=
  if negb (isOpen props) then None
  else Some [backdrop; panel (position props)].

(** A click whose target is reached from node [n] by the child indices
    [path]: the listener of the target runs first, then those of its
    ancestors up to [n] (bubbling).  [None] when the path names no node. *)
Fixpoint dispatch (n : Node) (path : list nat) : option (list Callback) :=
  match path with
  | [] => Some (listeners n)
  | i :: rest =>
      match children_of n !! i with
      | Some c =>
          match dispatch c rest with
          | Some cs => Some (cs ++ listeners n)
          | None => None
          end
      | None => None
      end
  end.

(** A click inside a rendered fragment; the first index selects the root. *)
Definition click (fragment : list Node) (path : list nat) : option (list Callback) :=
  match path with
  | [] => None
  | i :: rest =>
      match fragment !! i with
      | Some n => dispatch n rest
      | None => None
      end
  end.

(** How often [onEmojiSelect] and [onClose] are invoked by a click. *)
Definition is_select (c : Callback) : bool :=
  match c with OnEmojiSelect _ => true | OnClose => false end.

Definition is_close (c : Callback) : bool :=
  match c with OnClose => true | OnEmojiSelect _ => false end.

Definition selections (cs : list Callback) : list string :=
  omap (fun c => match c with OnEmojiSelect g => Some g | OnClose => None end) cs.

Definition closes (cs : list Callback) : nat := length (filter is_close cs).

End EmojiPicker.

(* ===================================================================== *)
(** ** The throttle wrapper *)
(* ===================================================================== *)

Module Throttle.

(** [{ fn: unknown; lastCall: number; delay: number }], the values of the
    [throttledFns] map.  A JS [Map] compares function keys by reference; a
    reference is a [positive]. *)
Record ThrottleInfo := { fn : positive; lastCall : Z; delay : Z }.

#[global] Instance ThrottleInfo_eq_dec : EqDecision ThrottleInfo.
Proof. solve_decision. Defined.

(** What the wrapper returns: [fn(...args)] or [undefined]. *)
Inductive Outcome := Forwarded | Dropped.

#[global] Instance Outcome_eq_dec : EqDecision Outcome.
Proof. solve_decision. Defined.

Section Wrapper.

Context {Args : Type}.

(** Everything the wrapper reads or writes: the module-level map
    [throttledFns], shared by every wrapper, and the executions of wrapped
    functions, oldest first. *)
Record World := {
  throttledFns : gmap positive ThrottleInfo;
  calls : list (positive * Args)
}.

(** [throttledFns.set(fn, info)] *)
Definition set_info (f : positive) (info : ThrottleInfo) (w : World) : World :=
  {| throttledFns := <[f := info]> (throttledFns w); calls := calls w |}.

(** [return fn(...args)] *)
Definition call (f : positive) (args : Args) (w : World) : World :=
  {| throttledFns := throttledFns w; calls := calls w ++ [(f, args)] |}.

(** The closure [throttled] returned by [useThrottle(fn, delay)], run with
    arguments [args] when [Date.now()] reads [now].  Clock readings and delays
    are whole milliseconds. *)
Definition throttled (f : positive) (d : Z) (args : Args) (now : Z) (w : World)
  : Outcome * World :=
  match throttledFns w !! f with
  | None =>
      (Forwarded,
       call f args (set_info f {| fn := f; lastCall := now; delay := d |} w))
  | Some throttleInfo =>
      if now - lastCall throttleInfo <? delay throttleInfo then (Dropped, w)
      else
        (Forwarded,
         call f args
           (set_info f {| fn := fn throttleInfo; lastCall := now;
                          delay := delay throttleInfo |} w))
  end.

(** The record that the map holds for [f] exactly when [last] is the
    timestamp of the last accepted call of a wrapper with window [W]. *)
Definition tracks (f : positive) (W : Z) (last : option Z) (w : World) : Prop :=
  throttledFns w !! f
  = (fun t => {| fn := f; lastCall := t; delay := W |}) <$> last.

(** Successive invocations of one wrapper, each with its clock reading. *)
Fixpoint run (f : positive) (d : Z) (invocations : list (Z * Args)) (w : World)
  : list Outcome * World :=
  match invocations with
  | [] => ([], w)
  | (now, args) :: rest =>
      let '(o, w1) := throttled f d args now w in
      let '(os, w2) := run f d rest w1 in
      (o :: os, w2)
  end.

(** The arguments that a list of outcomes lets through. *)
Fixpoint forwarded_args (invocations : list (Z * Args)) (os : list Outcome)
  : list Args :=
  match invocations, os with
  | (_, args) :: rest, Forwarded :: os' => args :: forwarded_args rest os'
  | _ :: rest, Dropped :: os' => forwarded_args rest os'
  | _, _ => []
  end.

End Wrapper.

Arguments World : clear implicits.

(** The rule of specification section 4.1, in its own words: a call is
    eligible when no prior accepted call exists or the elapsed time since the
    last accepted call is at least the window [W]. *)
Definition spec_eligible (W : Z) (lastAccepted : option Z) (now : Z) : bool :=
  match lastAccepted with
  | None => true
  | Some t => W <=? now - t
  end.

(** The throttle record of section 3 after one invocation: an eligible call
    is forwarded and its timestamp recorded, any other is dropped. *)
Definition spec_limit (W : Z) (lastAccepted : option Z) (now : Z) : Outcome * option Z :=
  if spec_eligible W lastAccepted now then (Forwarded, Some now)
  else (Dropped, lastAccepted).

Fixpoint spec_limit_all (W : Z) (lastAccepted : option Z) (ts : list Z)
  : list Outcome * option Z :=
  match ts with
  | [] => ([], lastAccepted)
  | now :: rest =>
      let '(o, l1) := spec_limit W lastAccepted now in
      let '(os, l2) := spec_limit_all W l1 rest in
      (o :: os, l2)
  end.

Section Traces.

Context {Args : Type}.

(** The clock readings of the invocations that a list of outcomes lets
    through. *)
Fixpoint forwarded_times (invocations : list (Z * Args)) (os : list Outcome)
  : list Z :=
  match invocations, os with
  | (now, _) :: rest, Forwarded :: os' => now :: forwarded_times rest os'
  | _ :: rest, Dropped :: os' => forwarded_times rest os'
  | _, _ => []
  end.

End Traces.

(** Successive clock readings lie at least [W] apart. *)
Fixpoint spaced (W : Z) (ts : list Z) : Prop :=
  match ts with
  | [] => True
  | t1 :: rest =>
      match rest with
      | [] => True
      | t2 :: _ => W <= t2 - t1
      end /\ spaced W rest
  end.

(** The world before any wrapper has run: an empty map, no executions. *)
Definition fresh_world : World string :=
  {| throttledFns := ∅; calls := [] |}.

End Throttle.

(* ===================================================================== *)
(** ** The reaction gesture controller *)
(* ===================================================================== *)

Module RoomReaction.

(** Modelled from the spec: the screen position of section 3 (room-reaction.tsx
    is not among the sources), written [{ x, y }] as the test-suite writes the
    [emojiBurstPosition] option. *)
Record Position := { x : Z; y : Z }.

(** [new ErrorInfo(message, code, statusCode)] *)
Record ErrorInfo := { message : string; code : Z; statusCode : Z }.

(** Modelled from the spec: the burst descriptor of section 3 (room-reaction.tsx
    is not among the sources): glyph, position, duration, active flag. *)
Record BurstDescriptor := {
  glyph : string;
  burstPosition : Position;
  duration : Z;
  active : bool
}.

(** Modelled from the spec: the optional caller configuration of section 6
    (room-reaction.tsx is not among the sources), with the defaulted
    threshold and throttle window of section 9.  The error handler is opaque;
    only its presence matters to the controller. *)
Record Config := {
  emojiBurstDuration : option Z;
  emojiBurstPosition : option Position;
  onSendRoomReactionError : bool;
  longPressThreshold : Z;
  throttleWindow : Z
}.

Definition reference_config : Config :=
  {| emojiBurstDuration := None; emojiBurstPosition := None;
     onSendRoomReactionError := false;
     longPressThreshold := 500; throttleWindow := 200 |}.

(** Modelled from the spec: the trigger element geometry of section 6
    (room-reaction.tsx is not among the sources), read from the host
    framework: where the trigger control is, and the default place of a burst
    for an inbound reaction. *)
Record Geometry := { triggerPosition : Position; defaultBurstPosition : Position }.

(** Modelled from the spec: the states of section 4.4 (room-reaction.tsx is
    not among the sources): [Idle], [Pressing] (timer running until
    [deadline]), [SurfaceOpen]. *)
Inductive Phase :=
| Idle
| Pressing (deadline : Z)
| SurfaceOpen.

(** Modelled from the spec: what the gesture controller owns (room-reaction.tsx
    is not among the sources): its state, the default emoji, the burst
    descriptor, and the throttle record of the inbound channel. *)
Record Controller := {
  phase : Phase;
  defaultEmoji : string;
  burst : option BurstDescriptor;
  lastAccepted : option Z
}.

(** Modelled from the spec: the discrete inputs of section 5
    (room-reaction.tsx is not among the sources). *)
Inductive Event :=
| PressStart
| PressEnd
| SurfaceSelect (g : string)
| SurfaceClose
| BurstComplete
| Inbound (g : string)
| SendRejected (e : ErrorInfo) (g : string)
| Tick.

(** Modelled from the spec: what the controller does to its collaborators
    (room-reaction.tsx is not among the sources). *)
Inductive Effect :=
| StartTimer (deadline : Z)
| CancelTimer
| OpenSurface (p : Position)
| CloseSurface
| Send (g : string)
| ShowBurst (b : BurstDescriptor)
| HideBurst
| CallErrorHandler (e : ErrorInfo) (g : string)
| LogError (line : string) (e : ErrorInfo).

(** Modelled from the spec: the default burst lifetime of section 4.3
    (emoji-burst.tsx is not among the sources). *)
Definition defaultDuration : Z := 600.

(** Modelled from the spec: the controller as mounted (room-reaction.tsx is
    not among the sources): idle, default emoji thumbs-up, no burst, no
    inbound reaction accepted yet. *)
Definition initial : Controller :=
  {| phase := Idle; defaultEmoji := "👍"; burst := None; lastAccepted := None |}.

(** Field updates of the controller. *)
Definition set_phase (p : Phase) (c : Controller) : Controller :=
  {| phase := p; defaultEmoji := defaultEmoji c; burst := burst c;
     lastAccepted := lastAccepted c |}.

Definition set_defaultEmoji (g : string) (c : Controller) : Controller :=
  {| phase := phase c; defaultEmoji := g; burst := burst c;
     lastAccepted := lastAccepted c |}.

Definition set_burst (b : option BurstDescriptor) (c : Controller) : Controller :=
  {| phase := phase c; defaultEmoji := defaultEmoji c; burst := b;
     lastAccepted := lastAccepted c |}.

Definition set_lastAccepted (t : option Z) (c : Controller) : Controller :=
  {| phase := phase c; defaultEmoji := defaultEmoji c; burst := burst c;
     lastAccepted := t |}.

(** Modelled from the spec: the burst created when a reaction is sent or
    received (room-reaction.tsx is not among the sources): active, with the
    caller's duration override or the default. *)
Definition new_burst (cfg : Config) (g : string) (p : Position) : BurstDescriptor :=
  {| glyph := g; burstPosition := p;
     duration := default defaultDuration (emojiBurstDuration cfg);
     active := true |}.

(** Modelled from the spec: the place of a burst for an inbound reaction
    (room-reaction.tsx is not among the sources): the caller-configured
    position, or the default one. *)
Definition inbound_position (cfg : Config) (geo : Geometry) : Position :=
  default (defaultBurstPosition geo) (emojiBurstPosition cfg).

(** Modelled from the spec: the long-press timer of the gesture controller
    (the component file room-reaction.tsx is not among the sources).  A timer
    started at press-start is single-shot and fires once its deadline is
    reached; every input is stamped with the clock reading at which the event
    loop handles it, and a due timer runs before that input
    ([Pressing -> SurfaceOpen], surface positioned at the trigger). *)
Definition fire_due (geo : Geometry) (now : Z) (c : Controller)
  : Controller * list Effect :=
  match phase c with
  | Pressing deadline =>
      if deadline <=? now
      then (set_phase SurfaceOpen c, [OpenSurface (triggerPosition geo)])
      else (c, [])
  | _ => (c, [])
  end.

(** Modelled from the spec: the "send" operation of the gesture controller
    (room-reaction.tsx is not among the sources).  The glyph goes to the
    external send capability and a burst is shown at the trigger position at
    once, before the outcome of the send is known. *)
Definition send_with_burst (cfg : Config) (geo : Geometry) (g : string)
    (c : Controller) : Controller * list Effect :=
  let b := new_burst cfg g (triggerPosition geo) in
  (set_burst (Some b) c, [Send g; ShowBurst b]).

(** Modelled from the spec: the routing of a failed send (room-reaction.tsx is
    not among the sources): the caller-supplied handler with (error, glyph) if
    one is configured, otherwise one diagnostic log line. *)
Definition report_failure (cfg : Config) (e : ErrorInfo) (g : string) : list Effect :=
  if onSendRoomReactionError cfg then [CallErrorHandler e g]
  else [LogError "Failed to send room reaction:" e].

(** Modelled from the spec: the transitions of the gesture controller state
    machine of section 4.4 (room-reaction.tsx is not among the sources).  An
    input for which the current state lists no transition changes nothing. *)
Definition handle (cfg : Config) (geo : Geometry) (now : Z) (ev : Event)
    (c : Controller) : Controller * list Effect :=
  match ev with
  | PressStart =>
      match phase c with
      | Idle =>
          let deadline := now + longPressThreshold cfg in
          (set_phase (Pressing deadline) c, [StartTimer deadline])
      | _ => (c, [])
      end
  | PressEnd =>
      match phase c with
      | Pressing _ =>
          let '(c1, effs) := send_with_burst cfg geo (defaultEmoji c) (set_phase Idle c) in
          (c1, CancelTimer :: effs)
      | _ => (c, [])
      end
  | SurfaceSelect g =>
      match phase c with
      | SurfaceOpen =>
          let '(c1, effs) :=
            send_with_burst cfg geo g (set_defaultEmoji g (set_phase Idle c)) in
          (c1, CloseSurface :: effs)
      | _ => (c, [])
      end
  | SurfaceClose =>
      match phase c with
      | SurfaceOpen => (set_phase Idle c, [CloseSurface])
      | _ => (c, [])
      end
  | BurstComplete =>
      match burst c with
      | Some b =>
          if active b
          then (set_burst (Some {| glyph := glyph b; burstPosition := burstPosition b;
                                   duration := duration b; active := false |}) c,
                [HideBurst])
          else (c, [])
      | None => (c, [])
      end
  | Inbound g =>
      if Throttle.spec_eligible (throttleWindow cfg) (lastAccepted c) now
      then
        let b := new_burst cfg g (inbound_position cfg geo) in
        (set_burst (Some b) (set_lastAccepted (Some now) c), [ShowBurst b])
      else (c, [])
  | SendRejected e g => (c, report_failure cfg e g)
  | Tick => (c, [])
  end.

(** Modelled from the spec: one turn of the event loop of section 5
    (room-reaction.tsx is not among the sources): due timer first, then the
    input, each run to completion. *)
Definition step (cfg : Config) (geo : Geometry) (c : Controller)
    (input : Z * Event) : Controller * list Effect :=
  let '(c1, effs1) := fire_due geo input.1 c in
  let '(c2, effs2) := handle cfg geo input.1 input.2 c1 in
  (c2, effs1 ++ effs2).

(** Inputs are handled in arrival order, one turn of the loop each. *)
Fixpoint run (cfg : Config) (geo : Geometry) (inputs : list (Z * Event))
    (c : Controller) : Controller * list Effect :=
  match inputs with
  | [] => (c, [])
  | input :: rest =>
      let '(c1, effs1) := step cfg geo c input in
      let '(c2, effs2) := run cfg geo rest c1 in
      (c2, effs1 ++ effs2)
  end.

(** Modelled from the spec: what the controller shows (room-reaction.tsx is
    not among the sources): the trigger control with the default emoji, the
    selection surface while it is open, the burst while it is active. *)
Inductive Widget :=
| Trigger (emoji : string)
| Surface (p : Position)
| Burst (b : BurstDescriptor).

Definition render (geo : Geometry) (c : Controller) : list Widget :=
  [Trigger (defaultEmoji c)]
  ++ match phase c with
     | SurfaceOpen => [Surface (triggerPosition geo)]
     | _ => []
     end
  ++ match burst c with
     | Some b => if active b then [Burst b] else []
     | None => []
     end.

Definition is_surface (w : Widget) : bool :=
  match w with Surface _ => true | _ => false end.

Definition is_burst (w : Widget) : bool :=
  match w with Burst _ => true | _ => false end.

Definition count_widgets (p : Widget -> bool) (ws : list Widget) : nat :=
  length (List.filter p ws).

(** Projections of an effect trace. *)
Definition sends (effs : list Effect) : list string :=
  omap (fun e => match e with Send g => Some g | _ => None end) effs.

Definition count_effects (p : Effect -> bool) (effs : list Effect) : nat :=
  length (List.filter p effs).

Definition is_open (e : Effect) : bool :=
  match e with OpenSurface _ => true | _ => false end.

Definition is_closeSurface (e : Effect) : bool :=
  match e with CloseSurface => true | _ => false end.

Definition is_hide (e : Effect) : bool :=
  match e with HideBurst => true | _ => false end.

Definition is_show (e : Effect) : bool :=
  match e with ShowBurst _ => true | _ => false end.

Definition is_report (e : Effect) : bool :=
  match e with CallErrorHandler _ _ | LogError _ _ => true | _ => false end.

Definition is_rejection (input : Z * Event) : bool :=
  match input.2 with SendRejected _ _ => true | _ => false end.

(** Inputs that belong to no gesture: they neither press nor release the
    trigger and do not come from the selection surface. *)
Definition ambient (ev : Event) : bool :=
  match ev with
  | BurstComplete | Inbound _ | SendRejected _ _ | Tick => true
  | _ => false
  end.

(** Inputs other than a release of the trigger: the press stays held. *)
Definition holds (ev : Event) : bool :=
  match ev with PressEnd => false | _ => true end.

(** Inputs that are not a terminal event of the selection surface. *)
Definition non_terminal (ev : Event) : bool :=
  match ev with
  | SurfaceSelect _ | SurfaceClose => false
  | _ => true
  end.

Definition surfaces (geo : Geometry) (c : Controller) : nat :=
  count_widgets is_surface (render geo c).

Definition bursts (geo : Geometry) (c : Controller) : nat :=
  count_widgets is_burst (render geo c).

(** The geometry that the test-suite installs: the trigger control at
    top 100, left 100. *)
Definition test_geometry : Geometry :=
  {| triggerPosition := {| x := 100; y := 100 |};
     defaultBurstPosition := {| x := 0; y := 0 |} |}.

End RoomReaction.

(* ===================================================================== *)
(** ** The stories of the message list *)
(* ===================================================================== *)

Module Stories.

(** The host clock: [readings k] is what the [k]-th reading of the clock
    ([Date.now()] or [new Date()]) returns, in milliseconds; [taken] counts
    the readings made so far. *)
Record Clock := { readings : nat -> Z; taken : nat }.

Definition Date_now (c : Clock) : Z * Clock :=
  (readings c (taken c), {| readings := readings c; taken := S (taken c) |}).

(** The clock after [k] more readings. *)
Definition advance (k : nat) (c : Clock) : Clock :=
  {| readings := readings c; taken := (taken c + k)%nat |}.

(** The value of [emptyMessageReactions()], a function of the storybook
    mocks. *)
Inductive Reactions := emptyMessageReactions.

(** The object literals that the stories pass to [createMockMessage]; a date
    is its time value.  Counters stay far below 2^53, where JS numbers are
    exact and a template literal prints them in decimal. *)
Record MessageOverrides := {
  serial : string;
  clientId : string;
  text : string;
  createdAt : Z;
  updatedAt : option Z;
  reactions : option Reactions
}.

(** [Array.from({ length: n }, (_, i) => f(i))]: [f] is called for
    [i = 0 .. n-1] in that order. *)
Fixpoint Array_from_go {A : Type} (f : nat -> Clock -> A * Clock) (i n : nat)
    (c : Clock) : list A * Clock :=
  match n with
  | O => ([], c)
  | S n' =>
      let '(a, c1) := f i c in
      let '(rest, c2) := Array_from_go f (S i) n' c1 in
      (a :: rest, c2)
  end.

Definition Array_from {A : Type} (n : nat) (f : nat -> Clock -> A * Clock)
  : Clock -> list A * Clock :=
  Array_from_go f 0 n.

(** The map function of the [Default] story. *)
Definition default_message (i : nat) (c : Clock) : MessageOverrides * Clock :=
  let serial := "msg_" +:+ pretty (i + 1)%nat in
  let clientId :=
    if (i mod 4 =? 0)%nat then "user1" else "user" +:+ pretty (i mod 3 + 2)%nat in
  let text :=
    if (i mod 5 =? 0)%nat
    then "This is a much longer message to test text wrapping and layout. Message number "
         +:+ pretty (i + 1)%nat
         +:+ " with lots of content to see how it displays in the chat interface."
    else "Message " +:+ pretty (i + 1)%nat in
  let '(now1, c1) := Date_now c in
  let createdAt := now1 - 1000 * 60 * (25 - Z.of_nat i) in
  let '(now2, c2) := Date_now c1 in
  let updatedAt := now2 - 1000 * 60 * (25 - Z.of_nat i) in
  ({| serial := serial; clientId := clientId; text := text;
      createdAt := createdAt; updatedAt := Some updatedAt;
      reactions := Some emptyMessageReactions |}, c2).

(** [Default.args.messages] *)
Definition Default_messages : Clock -> list MessageOverrides * Clock :=
  Array_from 25 default_message.

(** The map function of the [useState] initializer of
    [AutoScrollComparison]. *)
Definition initial_message (i : nat) (c : Clock) : MessageOverrides * Clock :=
  let serial := "msg_" +:+ pretty (i + 1)%nat in
  let clientId := if (i mod 2 =? 0)%nat then "user1" else "user2" in
  let text := "Initial message " +:+ pretty (i + 1)%nat in
  let '(now1, c1) := Date_now c in
  let createdAt := now1 - 1000 * 60 * (8 - Z.of_nat i) in
  ({| serial := serial; clientId := clientId; text := text;
      createdAt := createdAt; updatedAt := None; reactions := None |}, c1).

(** The state of the [AutoScrollComparison] decorator: the two [useState]
    cells, the ref, and whether an interval timer is registered. *)
Record AutoScroll := {
  messages : list MessageOverrides;
  isRunning : bool;
  messageCountRef : nat;
  interval : bool
}.

(** The effect with dependency [isRunning]: the clean-up of the previous
    run clears its interval, then an interval is set unless [!isRunning]. *)
Definition run_effect (s : AutoScroll) : AutoScroll :=
  {| messages := messages s; isRunning := isRunning s;
     messageCountRef := messageCountRef s; interval := isRunning s |}.

(** First render and first run of the effect. *)
Definition mount (c : Clock) : AutoScroll * Clock :=
  let '(initial, c1) := Array_from 8 initial_message c in
  (run_effect {| messages := initial; isRunning := true;
                 messageCountRef := 8; interval := false |}, c1).

Section Decorator.

(** [Date.prototype.toLocaleTimeString], which depends on the host locale. *)
Variable toLocaleTimeString : Z -> string.

(** The callback given to [setInterval]. *)
Definition interval_callback (s : AutoScroll) (c : Clock) : AutoScroll * Clock :=
  let count := (messageCountRef s + 1)%nat in
  let serial := "msg_" +:+ pretty count in
  let clientId :=
    if (count mod 3 =? 0)%nat then "user1"
    else if (count mod 2 =? 0)%nat then "user2" else "user3" in
  let '(now1, c1) := Date_now c in
  let text := "Message " +:+ pretty count +:+ " - " +:+ toLocaleTimeString now1 in
  let '(now2, c2) := Date_now c1 in
  let newMessage :=
    {| serial := serial; clientId := clientId; text := text;
       createdAt := now2; updatedAt := None; reactions := None |} in
  ({| messages := messages s ++ [newMessage]; isRunning := isRunning s;
      messageCountRef := count; interval := interval s |}, c2).

(** What happens to the decorator: its interval fires, or the button is
    clicked. *)
Inductive StoryEvent := IntervalFire | ClickToggle.

(** Each event is handled after the render that follows the previous one.  A
    cleared interval does not fire; a click sets [isRunning] to [!isRunning],
    which re-runs the effect. *)
Definition handle (ev : StoryEvent) (s : AutoScroll) (c : Clock)
  : AutoScroll * Clock :=
  match ev with
  | IntervalFire => if interval s then interval_callback s c else (s, c)
  | ClickToggle =>
      (run_effect {| messages := messages s; isRunning := negb (isRunning s);
                     messageCountRef := messageCountRef s;
                     interval := interval s |}, c)
  end.

Fixpoint run (evs : list StoryEvent) (s : AutoScroll) (c : Clock)
  : AutoScroll * Clock :=
  match evs with
  | [] => (s, c)
  | ev :: rest => let '(s1, c1) := handle ev s c in run rest s1 c1
  end.

End Decorator.

Definition is_fire (ev : StoryEvent) : bool :=
  match ev with IntervalFire => true | ClickToggle => false end.

(** The serials [msg_1 .. msg_n]. *)
Definition serials_upto (n : nat) : list string :=
  (fun i => "msg_" +:+ pretty (i + 1)%nat) <$> seq 0 n.

(** A clock that advances by one second per reading. *)
Definition ticking_clock : Clock :=
  {| readings := fun k => 1000 * Z.of_nat k; taken := 0 |}.

(** A clock that does not run backwards. *)
Definition monotone (c : Clock) : Prop :=
  forall a b : nat, (a <= b)%nat -> readings c a <= readings c b.

End Stories.

(* ===================================================================== *)
(** ** Properties of the emoji picker *)
(* ===================================================================== *)

Section EmojiPickerFacts.

Import EmojiPicker.

Lemma palette_length : length emojis = 43%nat.
Proof. reflexivity. Qed.

Lemma palette_NoDup : NoDup emojis.
Proof. apply (bool_decide_unpack _). vm_compute. exact I. Qed.

Lemma button_lookup (i : nat) :
  (emoji_button <$> emojis) !! i = emoji_button <$> (emojis !! i).
Proof. apply list_lookup_fmap. Qed.

(** Wherever a click lands inside a glyph button, the button's own listener
    is the only one that runs. *)
Lemma dispatch_button (g : string) (path : list nat) (cs : list Callback) :
  dispatch (emoji_button g) path = Some cs -> cs = [OnEmojiSelect g].
Proof.
  destruct path as [|k rest]; simpl.
  - congruence.
  - destruct k as [|k]; simpl; [|discriminate].
    destruct rest as [|k' rest']; simpl; [congruence|discriminate].
Qed.

(** The panel has no listener of its own, so a click inside it reaches at
    most the listener of one glyph button. *)
Lemma dispatch_panel (pos : Position) (path : list nat) (cs : list Callback) :
  dispatch (panel pos) path = Some cs ->
  cs = [] \/ exists g, g ∈ emojis /\ cs = [OnEmojiSelect g].
Proof.
  destruct path as [|i rest]; cbn [dispatch].
  - intros [= <-]. now left.
  - cbn [panel children_of]. rewrite button_lookup.
    destruct (emojis !! i) as [g|] eqn:Hg; cbn [fmap option_fmap option_map]; [|discriminate].
    destruct (dispatch (emoji_button g) rest) as [cs'|] eqn:Hd; [|discriminate].
    intros [= <-]. apply dispatch_button in Hd as ->.
    right. exists g. split; [|reflexivity].
    eapply list_elem_of_lookup_2; eassumption.
Qed.

(** Every click on the open picker invokes at most one callback: [onClose]
    from the backdrop, or [onEmojiSelect] with a palette glyph. *)
Lemma click_cases (pos : Position) (path : list nat) (cs : list Callback) :
  click [backdrop; panel pos] path = Some cs ->
  cs = [OnClose] \/ cs = [] \/ exists g, g ∈ emojis /\ cs = [OnEmojiSelect g].
Proof.
  destruct path as [|i rest]; cbn [click]; [discriminate|].
  destruct i as [|[|i]]; cbn [lookup list_lookup].
  - destruct rest as [|j rest']; simpl; [|discriminate].
    intros [= <-]. now left.
  - intros H. right. eapply dispatch_panel; eassumption.
  - discriminate.
Qed.

Lemma click_glyph (pos : Position) (i : nat) (g : string) :
  emojis !! i = Some g ->
  click [backdrop; panel pos] [1%nat; i] = Some [OnEmojiSelect g].
Proof.
  intros Hg. cbn [click lookup list_lookup dispatch panel children_of].
  rewrite button_lookup, Hg. reflexivity.
Qed.

(** The [key] attributes of the rendered glyph buttons. *)
Lemma button_keys (pos : Position) :
  omap (fun n => attrs_of n ≫= key) (children_of (panel pos)) = emojis.
Proof. reflexivity. Qed.

(** C8.  A closed picker renders nothing.  An open picker renders a fragment
    in which a click on the backdrop (root 0) invokes [onClose] and nothing
    else, and a click on the glyph button of [g] (child [i] of root 1), or on
    the text inside it, invokes [onEmojiSelect g] once and nothing else, in
    particular not [onClose]. *)
Theorem picker_click_contract (props : EmojiPickerProps) :
  (isOpen props = false -> EmojiPicker props = None) /\
  (isOpen props = true ->
   exists fragment,
     EmojiPicker props = Some fragment /\
     click fragment [0%nat] = Some [OnClose] /\
     selections [OnClose] = [] /\
     forall (i : nat) (g : string),
       emojis !! i = Some g ->
       click fragment [1%nat; i] = Some [OnEmojiSelect g] /\
       click fragment [1%nat; i; 0%nat] = Some [OnEmojiSelect g] /\
       selections [OnEmojiSelect g] = [g] /\
       closes [OnEmojiSelect g] = 0%nat).
Proof.
  destruct props as [open pos]. unfold EmojiPicker. cbn [isOpen position].
  split; intros ->; cbn [negb]; [reflexivity|].
  eexists. split; [reflexivity|].
  split; [reflexivity|]. split; [reflexivity|].
  intros i g Hg. split; [now apply click_glyph|].
  split; [|split; reflexivity].
  cbn [click lookup list_lookup dispatch panel children_of].
  rewrite button_lookup, Hg. reflexivity.
Qed.

Lemma picker_click_contract_witness :
  EmojiPicker {| isOpen := false; position := {| top := 100; left := 100 |} |} = None /\
  emojis !! 1%nat = Some "❤️" /\
  click [backdrop; panel {| top := 100; left := 100 |}] [1%nat; 1%nat]
  = Some [OnEmojiSelect "❤️"].
Proof.
  split.
  - apply (picker_click_contract
             {| isOpen := false; position := {| top := 100; left := 100 |} |}).
    reflexivity.
  - split; [reflexivity|].
    destruct (picker_click_contract
                {| isOpen := true; position := {| top := 100; left := 100 |} |})
      as [_ Hopen].
    destruct (Hopen eq_refl) as (fragment & Hrender & _ & _ & Hglyph).
    injection Hrender as <-.
    apply (Hglyph 1%nat "❤️"). reflexivity.
Defined.

(** C9.  The palette is one fixed list of 43 glyphs that starts with the
    thumbs-up glyph.  The open picker renders, inside an element with role
    [dialog], exactly one button per palette glyph and in palette order; the
    button of [g] is keyed, titled and labelled by [g], shows [g], and a click
    on it selects [g].  No click anywhere in the picker can select a glyph
    outside the palette. *)
Theorem palette_rendered_in_dialog :
  length emojis = 43%nat /\
  head emojis = Some "👍" /\
  forall props : EmojiPickerProps,
    isOpen props = true ->
    exists (attrs : Attrs) (buttons : list Node),
      EmojiPicker props = Some [backdrop; Element "div" attrs buttons] /\
      role attrs = Some "dialog" /\
      buttons = emoji_button <$> emojis /\
      (forall (i : nat) (g : string),
         emojis !! i = Some g ->
         exists a : Attrs,
           buttons !! i = Some (Element "button" a [Text g]) /\
           key a = Some g /\ title a = Some g /\
           ariaLabel a = Some ("Emoji " +:+ g) /\
           ariaHidden a = false /\
           click [backdrop; Element "div" attrs buttons] [1%nat; i]
           = Some [OnEmojiSelect g]) /\
      (forall (path : list nat) (cs : list Callback) (g : string),
         click [backdrop; Element "div" attrs buttons] path = Some cs ->
         g ∈ selections cs -> g ∈ emojis).
Proof.
  split; [reflexivity|]. split; [reflexivity|].
  intros [open pos]. cbn [isOpen]. intros ->.
  unfold EmojiPicker. cbn [isOpen position negb].
  eexists _, _. split; [reflexivity|].
  split; [reflexivity|]. split; [reflexivity|]. split.
  - intros i g Hg. eexists. split.
    + rewrite button_lookup, Hg. reflexivity.
    + repeat (split; [reflexivity|]). now apply (click_glyph pos).
  - intros path cs g Hclick Hsel.
    apply (click_cases pos) in Hclick as [-> | [-> | (g' & Hin & ->)]].
    + cbn in Hsel. now apply elem_of_nil in Hsel.
    + cbn in Hsel. now apply elem_of_nil in Hsel.
    + cbn in Hsel. apply list_elem_of_singleton in Hsel as ->. exact Hin.
Qed.

Lemma palette_rendered_in_dialog_witness :
  exists (attrs : Attrs) (buttons : list Node),
    EmojiPicker {| isOpen := true; position := {| top := 0; left := 0 |} |}
    = Some [backdrop; Element "div" attrs buttons] /\
    role attrs = Some "dialog" /\
    length buttons = 43%nat.
Proof.
  destruct palette_rendered_in_dialog as (_ & _ & Hopen).
  destruct (Hopen {| isOpen := true; position := {| top := 0; left := 0 |} |} eq_refl)
    as (attrs & buttons & Hrender & Hrole & Hbuttons & _).
  exists attrs, buttons. split; [exact Hrender|]. split; [exact Hrole|].
  rewrite Hbuttons. reflexivity.
Defined.

(** C10.  No glyph occurs twice in the palette: two different positions of
    the palette hold different strings, a glyph determines its position, and
    the [key]s of the rendered buttons are pairwise distinct. *)
Theorem palette_pairwise_distinct :
  NoDup emojis /\
  (forall (i j : nat) (g h : string),
     emojis !! i = Some g -> emojis !! j = Some h -> i <> j -> g <> h) /\
  (forall pos : Position,
     NoDup (omap (fun n => attrs_of n ≫= key) (children_of (panel pos)))).
Proof.
  split; [exact palette_NoDup|]. split.
  - intros i j g h Hi Hj Hne ->. apply Hne.
    eapply NoDup_lookup; [exact palette_NoDup| |]; eassumption.
  - intros pos. rewrite button_keys. exact palette_NoDup.
Qed.

Lemma palette_pairwise_distinct_witness : "👍" <> "❤️".
Proof.
  destruct palette_pairwise_distinct as (_ & Hdistinct & _).
  apply (Hdistinct 0%nat 1%nat); [reflexivity | reflexivity | lia].
Defined.

End EmojiPickerFacts.

(* ===================================================================== *)
(** ** Properties of the throttle wrapper *)
(* ===================================================================== *)

Section ThrottleFacts.

Import Throttle.

Context {Args : Type}.

Implicit Types (w : World Args) (f : positive) (args : Args).

Lemma throttled_first f d args now w :
  throttledFns w !! f = None ->
  throttled f d args now w
  = (Forwarded, call f args (set_info f {| fn := f; lastCall := now; delay := d |} w)).
Proof. unfold throttled. now intros ->. Qed.

Lemma throttled_drop f d args now w (info : ThrottleInfo) :
  throttledFns w !! f = Some info ->
  now - lastCall info < delay info ->
  throttled f d args now w = (Dropped, w).
Proof.
  unfold throttled. intros -> Hlt.
  destruct (Z.ltb_spec (now - lastCall info) (delay info)); [reflexivity|lia].
Qed.

Lemma throttled_pass f d args now w (info : ThrottleInfo) :
  throttledFns w !! f = Some info ->
  delay info <= now - lastCall info ->
  throttled f d args now w
  = (Forwarded,
     call f args (set_info f {| fn := fn info; lastCall := now; delay := delay info |} w)).
Proof.
  unfold throttled. intros -> Hge.
  destruct (Z.ltb_spec (now - lastCall info) (delay info)); [lia|reflexivity].
Qed.

Lemma lookup_after_call f args (info : ThrottleInfo) w :
  throttledFns (call f args (set_info f info w)) !! f = Some info.
Proof. cbn. apply lookup_insert_eq. Qed.

(** Only a forwarded call touches the world. *)
Lemma throttled_dropped_frame f d args now w :
  (throttled f d args now w).1 = Dropped -> (throttled f d args now w).2 = w.
Proof.
  unfold throttled. destruct (throttledFns w !! f) as [info|]; [|discriminate].
  destruct (now - lastCall info <? delay info); [reflexivity|discriminate].
Qed.

(** One invocation follows the rule of the specification, and keeps the
    record in step with the last accepted timestamp. *)
Lemma throttled_refines f W args now w (last : option Z) :
  tracks f W last w ->
  (throttled f W args now w).1 = (spec_limit W last now).1 /\
  tracks f W (spec_limit W last now).2 (throttled f W args now w).2.
Proof.
  unfold tracks, spec_limit, spec_eligible. intros Htr.
  destruct last as [t|]; cbn in Htr.
  - unfold throttled. rewrite Htr. cbn [lastCall delay fn].
    destruct (Z.ltb_spec (now - t) W), (Z.leb_spec W (now - t)); try lia; cbn.
    + split; [reflexivity|exact Htr].
    + split; [reflexivity|]. apply lookup_insert_eq.
  - rewrite (throttled_first _ _ _ _ _ Htr). cbn.
    split; [reflexivity|]. apply lookup_insert_eq.
Qed.

Lemma run_refines f W (invocations : list (Z * Args)) : forall w (last : option Z),
  tracks f W last w ->
  (run f W invocations w).1 = (spec_limit_all W last invocations.*1).1 /\
  tracks f W (spec_limit_all W last invocations.*1).2 (run f W invocations w).2.
Proof.
  induction invocations as [|[now args] rest IH]; intros w last Htr.
  - split; [reflexivity|exact Htr].
  - destruct (throttled_refines f W args now w last Htr) as [Ho Htr1].
    cbn [run fmap list_fmap fst spec_limit_all].
    destruct (throttled f W args now w) as [o w1].
    destruct (spec_limit W last now) as [o' l1]. cbn [fst snd] in Ho, Htr1. subst o'.
    destruct (IH w1 l1 Htr1) as [Hos Htr2].
    destruct (run f W rest w1) as [os w2].
    destruct (spec_limit_all W l1 rest.*1) as [os' l2]. cbn [fst snd] in *.
    now subst os'.
Qed.

(** The wrapped function runs once per forwarded invocation, with that
    invocation's arguments, and never otherwise. *)
Lemma run_calls f d (invocations : list (Z * Args)) : forall w,
  calls (run f d invocations w).2
  = calls w ++ ((fun a => (f, a)) <$> forwarded_args invocations (run f d invocations w).1).
Proof.
  induction invocations as [|[now args] rest IH]; intros w.
  - cbn. now rewrite app_nil_r.
  - cbn [run]. destruct (throttled f d args now w) as [o w1] eqn:Hstep.
    specialize (IH w1). destruct (run f d rest w1) as [os w2].
    cbn [fst snd] in *. rewrite IH.
    unfold throttled in Hstep.
    destruct (throttledFns w !! f) as [info|].
    + destruct (now - lastCall info <? delay info);
        injection Hstep as <- <-; cbn; [reflexivity|now rewrite <- app_assoc].
    + injection Hstep as <- <-. cbn. now rewrite <- app_assoc.
Qed.

(** C4.  For a callback [f] wrapped with window [W]: its first invocation is
    forwarded and registers its timestamp; once a call was accepted at [last],
    an invocation with [now - last < W] is dropped and one with
    [W <= now - last] (equality included) is forwarded and makes [now] the
    last accepted timestamp; and over any sequence of invocations that starts
    with [f] unregistered, the outcomes and the recorded timestamp are those
    of the rule of the specification. *)
Theorem throttle_window_rule f (W : Z) args (now : Z) w :
  (throttledFns w !! f = None ->
   exists w',
     throttled f W args now w = (Forwarded, w') /\
     tracks f W (Some now) w' /\
     calls w' = calls w ++ [(f, args)]) /\
  (forall last : Z,
     tracks f W (Some last) w ->
     (now - last < W -> throttled f W args now w = (Dropped, w)) /\
     (W <= now - last ->
      exists w',
        throttled f W args now w = (Forwarded, w') /\
        tracks f W (Some now) w' /\
        calls w' = calls w ++ [(f, args)])) /\
  (forall invocations : list (Z * Args),
     throttledFns w !! f = None ->
     (run f W invocations w).1 = (spec_limit_all W None invocations.*1).1 /\
     tracks f W (spec_limit_all W None invocations.*1).2 (run f W invocations w).2).
Proof.
  split; [|split].
  - intros Hnone. rewrite (throttled_first _ _ _ _ _ Hnone).
    eexists. split; [reflexivity|]. split; [apply lookup_after_call|reflexivity].
  - intros last Htr. unfold tracks in Htr. cbn in Htr. split.
    + intros Hlt. now apply (throttled_drop _ _ _ _ _ _ Htr).
    + intros Hge. rewrite (throttled_pass _ _ _ _ _ _ Htr Hge).
      eexists. split; [reflexivity|]. split; [apply lookup_after_call|reflexivity].
  - intros invocations Hnone. now apply run_refines.
Qed.

(** C5.  A dropped invocation changes neither the throttle map nor the list
    of executions of the callback; every later invocation therefore has the
    outcome it would have had without the dropped one, and the executions of
    the callback after it are exactly the later forwarded invocations, each
    with its own arguments. *)
Theorem dropped_call_frame f (d : Z) args (now : Z) w :
  (throttled f d args now w).1 = Dropped ->
  (throttled f d args now w).2 = w /\
  forall later : list (Z * Args),
    run f d ((now, args) :: later) w
    = (Dropped :: (run f d later w).1, (run f d later w).2) /\
    calls (run f d ((now, args) :: later) w).2
    = calls w ++ ((fun a => (f, a)) <$> forwarded_args later (run f d later w).1).
Proof.
  intros Hdrop. pose proof (throttled_dropped_frame _ _ _ _ _ Hdrop) as Hframe.
  split; [exact Hframe|]. intros later.
  assert (run f d ((now, args) :: later) w
          = (Dropped :: (run f d later w).1, (run f d later w).2)) as Hrun.
  { cbn [run]. destruct (throttled f d args now w) as [o w1].
    cbn [fst snd] in Hdrop, Hframe. subst o w1.
    now destruct (run f d later w). }
  split; [exact Hrun|]. rewrite Hrun. cbn [snd]. apply run_calls.
Qed.

End ThrottleFacts.

Lemma throttle_window_rule_witness :
  Throttle.throttledFns Throttle.fresh_world !! 1%positive = None /\
  Throttle.tracks 1%positive 200 (Some 0)
    (Throttle.throttled 1%positive 200 "👍" 0 Throttle.fresh_world).2 /\
  150 - 0 < 200 /\
  200 <= 200 - 0 /\
  (Throttle.throttled 1%positive 200 "👍" 0 Throttle.fresh_world).1
  = Throttle.Forwarded /\
  (Throttle.throttled 1%positive 200 "❤️" 150
     (Throttle.throttled 1%positive 200 "👍" 0 Throttle.fresh_world).2).1
  = Throttle.Dropped /\
  (Throttle.throttled 1%positive 200 "🎉" 200
     (Throttle.throttled 1%positive 200 "👍" 0 Throttle.fresh_world).2).1
  = Throttle.Forwarded /\
  (Throttle.run 1%positive 200 [(0, "👍"); (150, "❤️"); (201, "🎉")]
     Throttle.fresh_world).1
  = [Throttle.Forwarded; Throttle.Dropped; Throttle.Forwarded].
Proof.
  assert (Throttle.tracks 1%positive 200 (Some 0)
            (Throttle.throttled 1%positive 200 "👍" 0 Throttle.fresh_world).2)
    as Htracks by reflexivity.
  destruct (throttle_window_rule 1%positive 200 "👍" 0 Throttle.fresh_world)
    as (Hfirst & _ & Hrun).
  destruct (throttle_window_rule 1%positive 200 "❤️" 150
              (Throttle.throttled 1%positive 200 "👍" 0 Throttle.fresh_world).2)
    as (_ & Hdrop & _).
  destruct (throttle_window_rule 1%positive 200 "🎉" 200
              (Throttle.throttled 1%positive 200 "👍" 0 Throttle.fresh_world).2)
    as (_ & Hpass & _).
  split; [reflexivity|]. split; [exact Htracks|].
  split; [reflexivity|]. split; [discriminate|].
  split; [|split; [|split]].
  - destruct (Hfirst eq_refl) as (w' & Hstep & _ & _). now rewrite Hstep.
  - destruct (Hdrop 0 Htracks) as [Hlt _]. now rewrite (Hlt eq_refl).
  - destruct (Hpass 0 Htracks) as [_ Hge].
    destruct Hge as (w' & Hstep & _ & _); [discriminate|]. now rewrite Hstep.
  - destruct (Hrun [(0, "👍"); (150, "❤️"); (201, "🎉")] eq_refl) as [Hos _].
    rewrite Hos. reflexivity.
Defined.

Lemma dropped_call_frame_witness :
  Throttle.run 1%positive 200 [(150, "❤️"); (201, "🎉")]
    (Throttle.throttled 1%positive 200 "👍" 0 Throttle.fresh_world).2
  = ([Throttle.Dropped; Throttle.Forwarded],
     (Throttle.throttled 1%positive 200 "🎉" 201
        (Throttle.throttled 1%positive 200 "👍" 0 Throttle.fresh_world).2).2).
Proof.
  destruct (dropped_call_frame 1%positive 200 "❤️" 150
              (Throttle.throttled 1%positive 200 "👍" 0 Throttle.fresh_world).2 eq_refl)
    as [_ Hlater].
  destruct (Hlater [(201, "🎉")]) as [Hrun _].
  rewrite Hrun. reflexivity.
Defined.

(* ===================================================================== *)
(** ** Properties of the gesture controller *)
(* ===================================================================== *)

Section RoomReactionFacts.

Import RoomReaction.

Variables (cfg : Config) (geo : Geometry).

Implicit Types (c : Controller) (ev : Event) (inputs : list (Z * Event)).

Lemma run_cons c (input : Z * Event) inputs :
  run cfg geo (input :: inputs) c
  = ((run cfg geo inputs (step cfg geo c input).1).1,
     (step cfg geo c input).2 ++ (run cfg geo inputs (step cfg geo c input).1).2).
Proof.
  cbn [run]. destruct (step cfg geo c input) as [c1 effs1].
  cbn [fst snd]. now destruct (run cfg geo inputs c1).
Qed.

Lemma run_app inputs : forall c (more : list (Z * Event)),
  run cfg geo (inputs ++ more) c
  = ((run cfg geo more (run cfg geo inputs c).1).1,
     (run cfg geo inputs c).2 ++ (run cfg geo more (run cfg geo inputs c).1).2).
Proof.
  induction inputs as [|input rest IH]; intros c more.
  - cbn. now destruct (run cfg geo more c).
  - rewrite <- app_comm_cons, !run_cons, IH. cbn [fst snd].
    now rewrite app_assoc.
Qed.

Lemma sends_app (effs more : list Effect) :
  sends (effs ++ more) = sends effs ++ sends more.
Proof. apply omap_app. Qed.

Lemma count_effects_app (p : Effect -> bool) (effs more : list Effect) :
  count_effects p (effs ++ more) = (count_effects p effs + count_effects p more)%nat.
Proof. unfold count_effects. now rewrite List.filter_app, length_app. Qed.

Lemma surfaces_phase c :
  surfaces geo c = match phase c with SurfaceOpen => 1%nat | _ => 0%nat end.
Proof.
  unfold surfaces, render.
  destruct (phase c), (burst c) as [[? ? ? []]|]; reflexivity.
Qed.

Lemma bursts_active c :
  bursts geo c
  = match burst c with
    | Some b => if active b then 1%nat else 0%nat
    | None => 0%nat
    end.
Proof.
  unfold bursts, render.
  destruct (phase c), (burst c) as [[? ? ? []]|]; reflexivity.
Qed.

(** While the deadline lies ahead, the timer does nothing. *)
Lemma fire_due_early c (deadline now : Z) :
  phase c = Pressing deadline -> now < deadline -> fire_due geo now c = (c, []).
Proof.
  unfold fire_due. intros -> Hlt.
  destruct (Z.leb_spec deadline now); [lia|reflexivity].
Qed.

(** Once the deadline is reached, the next turn of the loop opens the surface. *)
Lemma fire_due_late c (deadline now : Z) :
  phase c = Pressing deadline -> deadline <= now ->
  fire_due geo now c = (set_phase SurfaceOpen c, [OpenSurface (triggerPosition geo)]).
Proof.
  unfold fire_due. intros -> Hle.
  destruct (Z.leb_spec deadline now); [reflexivity|lia].
Qed.

Lemma fire_due_settled c (now : Z) :
  phase c = Idle \/ phase c = SurfaceOpen -> fire_due geo now c = (c, []).
Proof. unfold fire_due. now intros [-> | ->]. Qed.

Lemma step_press c (t0 : Z) :
  phase c = Idle ->
  step cfg geo c (t0, PressStart)
  = (set_phase (Pressing (t0 + longPressThreshold cfg)) c,
     [StartTimer (t0 + longPressThreshold cfg)]).
Proof.
  intros Hidle. unfold step. cbn [fst snd].
  rewrite fire_due_settled by now left. cbn [handle]. now rewrite Hidle.
Qed.

(** A release before the deadline is a tap. *)
Lemma step_tap c (deadline now : Z) :
  phase c = Pressing deadline -> now < deadline ->
  step cfg geo c (now, PressEnd)
  = (set_burst (Some (new_burst cfg (defaultEmoji c) (triggerPosition geo)))
       (set_phase Idle c),
     [CancelTimer; Send (defaultEmoji c);
      ShowBurst (new_burst cfg (defaultEmoji c) (triggerPosition geo))]).
Proof.
  intros Hphase Hlt. unfold step. cbn [fst snd].
  rewrite (fire_due_early _ _ _ Hphase Hlt). cbn [handle]. now rewrite Hphase.
Qed.

(** While the press is held and the deadline lies ahead, an input other than
    a release keeps the controller pressing, sends nothing, opens nothing. *)
Lemma step_held c (deadline now : Z) ev :
  phase c = Pressing deadline -> now < deadline -> holds ev = true ->
  phase (step cfg geo c (now, ev)).1 = Pressing deadline /\
  defaultEmoji (step cfg geo c (now, ev)).1 = defaultEmoji c /\
  sends (step cfg geo c (now, ev)).2 = [] /\
  count_effects is_open (step cfg geo c (now, ev)).2 = 0%nat.
Proof.
  intros Hphase Hlt Hev. unfold step. cbn [fst snd].
  rewrite (fire_due_early _ _ _ Hphase Hlt).
  destruct ev; try discriminate; cbn [handle]; rewrite ?Hphase; cbn; auto.
  - destruct (burst c) as [b|]; [destruct (active b)|]; cbn; auto.
  - destruct (Throttle.spec_eligible _ _ _); cbn; auto.
  - unfold report_failure. destruct (onSendRoomReactionError cfg); cbn; auto.
Qed.

Lemma run_held (deadline : Z) inputs : forall c,
  phase c = Pressing deadline ->
  Forall (fun input => holds input.2 = true /\ input.1 < deadline) inputs ->
  phase (run cfg geo inputs c).1 = Pressing deadline /\
  defaultEmoji (run cfg geo inputs c).1 = defaultEmoji c /\
  sends (run cfg geo inputs c).2 = [] /\
  count_effects is_open (run cfg geo inputs c).2 = 0%nat.
Proof.
  induction inputs as [|[now ev] rest IH]; intros c Hphase Hall.
  - cbn. auto.
  - apply Forall_cons in Hall as [[Hev Hlt] Hrest]. cbn [fst snd] in Hev, Hlt.
    destruct (step_held c deadline now ev Hphase Hlt Hev) as (Hp & Hd & Hs & Ho).
    destruct (IH _ Hp Hrest) as (Hp' & Hd' & Hs' & Ho').
    rewrite run_cons. cbn [fst snd].
    rewrite sends_app, count_effects_app, Hs, Hs', Ho, Ho', Hd', Hd. auto.
Qed.

(** While the surface is open, an input that is not one of its terminal
    events leaves it open and sends nothing. *)
Lemma step_surface_open c (now : Z) ev :
  phase c = SurfaceOpen -> non_terminal ev = true ->
  phase (step cfg geo c (now, ev)).1 = SurfaceOpen /\
  defaultEmoji (step cfg geo c (now, ev)).1 = defaultEmoji c /\
  sends (step cfg geo c (now, ev)).2 = [] /\
  count_effects is_open (step cfg geo c (now, ev)).2 = 0%nat.
Proof.
  intros Hphase Hev. unfold step. cbn [fst snd].
  rewrite fire_due_settled by now right.
  destruct ev; try discriminate; cbn [handle]; rewrite ?Hphase; cbn; auto.
  - destruct (burst c) as [b|]; [destruct (active b)|]; cbn; auto.
  - destruct (Throttle.spec_eligible _ _ _); cbn; auto.
  - unfold report_failure. destruct (onSendRoomReactionError cfg); cbn; auto.
Qed.

Lemma run_surface_open inputs : forall c,
  phase c = SurfaceOpen ->
  Forall (fun input => non_terminal input.2 = true) inputs ->
  phase (run cfg geo inputs c).1 = SurfaceOpen /\
  defaultEmoji (run cfg geo inputs c).1 = defaultEmoji c /\
  sends (run cfg geo inputs c).2 = [] /\
  count_effects is_open (run cfg geo inputs c).2 = 0%nat.
Proof.
  induction inputs as [|[now ev] rest IH]; intros c Hphase Hall.
  - cbn. auto.
  - apply Forall_cons in Hall as [Hev Hrest]. cbn [snd] in Hev.
    destruct (step_surface_open c now ev Hphase Hev) as (Hp & Hd & Hs & Ho).
    destruct (IH _ Hp Hrest) as (Hp' & Hd' & Hs' & Ho').
    rewrite run_cons. cbn [fst snd].
    rewrite sends_app, count_effects_app, Hs, Hs', Ho, Ho', Hd', Hd. auto.
Qed.

(** The turn of the loop on which a held press reaches its deadline. *)
Lemma step_long_press c (deadline now : Z) ev :
  phase c = Pressing deadline -> deadline <= now -> non_terminal ev = true ->
  phase (step cfg geo c (now, ev)).1 = SurfaceOpen /\
  defaultEmoji (step cfg geo c (now, ev)).1 = defaultEmoji c /\
  sends (step cfg geo c (now, ev)).2 = [] /\
  count_effects is_open (step cfg geo c (now, ev)).2 = 1%nat.
Proof.
  intros Hphase Hle Hev. unfold step. cbn [fst snd].
  rewrite (fire_due_late _ _ _ Hphase Hle).
  destruct ev; try discriminate; cbn [handle set_phase phase burst lastAccepted];
    cbn; auto.
  - destruct (burst c) as [b|]; [destruct (active b)|]; cbn; auto.
  - destruct (Throttle.spec_eligible _ _ _); cbn; auto.
  - unfold report_failure. destruct (onSendRoomReactionError cfg); cbn; auto.
Qed.

(** In [Idle] the surface is not shown, and its events find no transition. *)
Lemma step_surface_gone c (now : Z) ev :
  phase c = Idle -> non_terminal ev = false -> step cfg geo c (now, ev) = (c, []).
Proof.
  intros Hphase Hev. unfold step. cbn [fst snd].
  rewrite fire_due_settled by now left.
  destruct ev; try discriminate; cbn [handle]; now rewrite Hphase.
Qed.

(** Surfaces are opened and closed in turn: over one turn of the loop, the
    surfaces opened plus those shown before equal the surfaces closed plus
    those shown after. *)
Lemma step_balance c (input : Z * Event) :
  (count_effects is_open (step cfg geo c input).2 + surfaces geo c
   = count_effects is_closeSurface (step cfg geo c input).2
     + surfaces geo (step cfg geo c input).1)%nat.
Proof.
  rewrite !surfaces_phase. destruct input as [now ev], c as [ph de bu la].
  unfold step, fire_due. cbn [fst snd phase].
  destruct ph as [|deadline|]; [|destruct (deadline <=? now)|];
    destruct ev; cbn; try reflexivity;
    try (destruct bu as [[? ? ? []]|]; reflexivity);
    try (destruct (Throttle.spec_eligible _ _ _); reflexivity);
    try (unfold report_failure; destruct (onSendRoomReactionError cfg); reflexivity).
Qed.

Lemma run_balance inputs : forall c,
  (count_effects is_open (run cfg geo inputs c).2 + surfaces geo c
   = count_effects is_closeSurface (run cfg geo inputs c).2
     + surfaces geo (run cfg geo inputs c).1)%nat.
Proof.
  induction inputs as [|input rest IH]; intros c.
  - reflexivity.
  - rewrite run_cons. cbn [fst snd]. rewrite !count_effects_app.
    pose proof (step_balance c input). pose proof (IH (step cfg geo c input).1). lia.
Qed.

(** A trace that opens no surface shows none at any point, if none was shown
    at its start. *)
Lemma no_open_no_surface inputs c (k : nat) :
  surfaces geo c = 0%nat ->
  count_effects is_open (run cfg geo inputs c).2 = 0%nat ->
  surfaces geo (run cfg geo (take k inputs) c).1 = 0%nat.
Proof.
  intros Hnone Hopens. rewrite <- (take_drop k inputs) in Hopens.
  rewrite run_app in Hopens. cbn [snd] in Hopens.
  rewrite count_effects_app in Hopens.
  pose proof (run_balance (take k inputs) c). lia.
Qed.

(** The plain tap: press, then release before the deadline. *)
Lemma plain_tap_sends c (t0 t1 : Z) :
  phase c = Idle -> t1 < t0 + longPressThreshold cfg ->
  sends (run cfg geo [(t0, PressStart); (t1, PressEnd)] c).2 = [defaultEmoji c].
Proof.
  intros Hidle Hrelease.
  rewrite run_cons, (step_press c t0 Hidle). cbn [fst snd].
  rewrite run_cons,
    (step_tap (set_phase (Pressing (t0 + longPressThreshold cfg)) c)
       (t0 + longPressThreshold cfg) t1 eq_refl Hrelease).
  reflexivity.
Qed.

(** C2.  A gesture session that starts in [Idle] at [t0] and is released at
    [t1], before the long-press deadline, whatever other inputs arrive in
    between: exactly one send is made and it carries the default emoji; no
    surface is opened and none is shown at any point of the session; the
    controller is back in [Idle] with the timer gone, so that no later clock
    reading opens the surface.  The default emoji is initially the thumbs-up
    glyph. *)
Theorem tap_sends_default c (t0 t1 : Z) (during : list (Z * Event)) :
  phase c = Idle ->
  Forall (fun input => holds input.2 = true /\ input.1 < t0 + longPressThreshold cfg)
    during ->
  t1 < t0 + longPressThreshold cfg ->
  let session := (t0, PressStart) :: during ++ [(t1, PressEnd)] in
  sends (run cfg geo session c).2 = [defaultEmoji c] /\
  count_effects is_open (run cfg geo session c).2 = 0%nat /\
  (forall k : nat, surfaces geo (run cfg geo (take k session) c).1 = 0%nat) /\
  phase (run cfg geo session c).1 = Idle /\
  defaultEmoji (run cfg geo session c).1 = defaultEmoji c /\
  (forall t : Z,
     fire_due geo t (run cfg geo session c).1 = ((run cfg geo session c).1, [])) /\
  defaultEmoji initial = "👍".
Proof.
  intros Hidle Hduring Hrelease session.
  set (deadline := t0 + longPressThreshold cfg) in *.
  set (c1 := set_phase (Pressing deadline) c).
  assert (phase c1 = Pressing deadline) as Hc1 by reflexivity.
  destruct (run_held deadline during c1 Hc1 Hduring) as (Hp & Hd & Hs & Ho).
  assert (run cfg geo session c
          = (set_burst
               (Some (new_burst cfg (defaultEmoji c) (triggerPosition geo)))
               (set_phase Idle (run cfg geo during c1).1),
             [StartTimer deadline]
             ++ (run cfg geo during c1).2
             ++ [CancelTimer; Send (defaultEmoji c);
                 ShowBurst (new_burst cfg (defaultEmoji c) (triggerPosition geo))]))
    as Hrun.
  { unfold session. rewrite run_cons, (step_press c t0 Hidle). cbn [fst snd].
    fold deadline. fold c1. rewrite run_app. cbn [fst snd].
    rewrite run_cons, (step_tap _ deadline t1 Hp Hrelease). cbn [fst snd run].
    rewrite Hd, app_nil_r. reflexivity. }
  assert (count_effects is_open (run cfg geo session c).2 = 0%nat) as Hopens.
  { rewrite Hrun. cbn [snd]. rewrite !count_effects_app, Ho. reflexivity. }
  split; [|split; [exact Hopens|split]].
  - rewrite Hrun. cbn [snd]. rewrite !sends_app, Hs. reflexivity.
  - intros k. apply no_open_no_surface; [|exact Hopens].
    rewrite surfaces_phase. now rewrite Hidle.
  - rewrite Hrun. cbn [fst].
    split; [reflexivity|]. split; [cbn; exact Hd|]. split; [|reflexivity].
    intros t. now apply fire_due_settled; left.
Qed.

(** C3.  A gesture session that starts in [Idle] at [t0] and is still held
    when the loop next runs at a time [t] at or past the deadline
    [t0 + longPressThreshold]: the surface opens, once, and for as long as
    the surface receives neither of its terminal events the controller makes
    no send at all; dismissing the surface then sends nothing, selecting a
    glyph sends that glyph. *)
Theorem long_press_opens_surface c (t0 t : Z) ev (during held : list (Z * Event)) :
  phase c = Idle ->
  Forall (fun input => holds input.2 = true /\ input.1 < t0 + longPressThreshold cfg)
    during ->
  t0 + longPressThreshold cfg <= t ->
  non_terminal ev = true ->
  Forall (fun input => non_terminal input.2 = true) held ->
  let session := (t0, PressStart) :: during ++ (t, ev) :: held in
  phase (run cfg geo session c).1 = SurfaceOpen /\
  surfaces geo (run cfg geo session c).1 = 1%nat /\
  count_effects is_open (run cfg geo session c).2 = 1%nat /\
  sends (run cfg geo session c).2 = [] /\
  (forall t' : Z,
     sends (step cfg geo (run cfg geo session c).1 (t', SurfaceClose)).2 = []) /\
  (forall (t' : Z) (g : string),
     sends (step cfg geo (run cfg geo session c).1 (t', SurfaceSelect g)).2 = [g]).
Proof.
  intros Hidle Hduring Hdue Hev Hheld session.
  set (deadline := t0 + longPressThreshold cfg) in *.
  set (c1 := set_phase (Pressing deadline) c).
  assert (phase c1 = Pressing deadline) as Hc1 by reflexivity.
  destruct (run_held deadline during c1 Hc1 Hduring) as (Hp & _ & Hs & Ho).
  set (c2 := (run cfg geo during c1).1) in *.
  destruct (step_long_press c2 deadline t ev Hp Hdue Hev) as (Hp3 & _ & Hs3 & Ho3).
  set (c3 := (step cfg geo c2 (t, ev)).1) in *.
  destruct (run_surface_open held c3 Hp3 Hheld) as (Hp4 & _ & Hs4 & Ho4).
  assert (run cfg geo session c
          = ((run cfg geo held c3).1,
             [StartTimer deadline]
             ++ (run cfg geo during c1).2
             ++ (step cfg geo c2 (t, ev)).2 ++ (run cfg geo held c3).2)) as Hrun.
  { unfold session. rewrite run_cons, (step_press c t0 Hidle). cbn [fst snd].
    fold deadline. fold c1. rewrite run_app. cbn [fst snd]. fold c2.
    rewrite run_cons. cbn [fst snd]. fold c3. reflexivity. }
  rewrite Hrun. cbn [fst snd].
  split; [exact Hp4|]. split; [now rewrite surfaces_phase, Hp4|].
  split; [rewrite !count_effects_app, Ho, Ho3, Ho4; reflexivity|].
  split; [rewrite !sends_app, Hs, Hs3, Hs4; reflexivity|].
  split; intros t'; [|intros g]; unfold step; cbn [fst snd];
    rewrite fire_due_settled by (now right); cbn [handle]; rewrite Hp4; reflexivity.
Qed.

(** C1.  With the surface open: selecting [g] closes the surface, makes
    exactly one send, of [g], and makes [g] the default emoji, so that the
    next tap sends [g]; closing makes no send and keeps the default emoji.
    Either way the surface is gone afterwards and a further selection or
    closing finds no transition: the surface takes one terminal event. *)
Theorem surface_terminal_event c (t : Z) (g : string) :
  phase c = SurfaceOpen ->
  (let selected := step cfg geo c (t, SurfaceSelect g) in
   phase selected.1 = Idle /\
   surfaces geo selected.1 = 0%nat /\
   count_effects is_closeSurface selected.2 = 1%nat /\
   sends selected.2 = [g] /\
   defaultEmoji selected.1 = g /\
   (forall t0 t1 : Z,
      t1 < t0 + longPressThreshold cfg ->
      sends (run cfg geo [(t0, PressStart); (t1, PressEnd)] selected.1).2 = [g]) /\
   (forall (t' : Z) ev,
      non_terminal ev = false -> step cfg geo selected.1 (t', ev) = (selected.1, []))) /\
  (let closed := step cfg geo c (t, SurfaceClose) in
   phase closed.1 = Idle /\
   surfaces geo closed.1 = 0%nat /\
   count_effects is_closeSurface closed.2 = 1%nat /\
   sends closed.2 = [] /\
   defaultEmoji closed.1 = defaultEmoji c /\
   (forall (t' : Z) ev,
      non_terminal ev = false -> step cfg geo closed.1 (t', ev) = (closed.1, []))).
Proof.
  intros Hopen.
  assert (step cfg geo c (t, SurfaceSelect g)
          = (set_burst (Some (new_burst cfg g (triggerPosition geo)))
               (set_defaultEmoji g (set_phase Idle c)),
             [CloseSurface; Send g;
              ShowBurst (new_burst cfg g (triggerPosition geo))])) as Hselect.
  { unfold step. cbn [fst snd]. rewrite fire_due_settled by now right.
    cbn [handle]. now rewrite Hopen. }
  assert (step cfg geo c (t, SurfaceClose) = (set_phase Idle c, [CloseSurface]))
    as Hclose.
  { unfold step. cbn [fst snd]. rewrite fire_due_settled by now right.
    cbn [handle]. now rewrite Hopen. }
  split; cbv zeta.
  - rewrite Hselect. cbn [fst snd].
    split; [reflexivity|]. split; [now rewrite surfaces_phase|].
    repeat (split; [reflexivity|]). split.
    + intros t0 t1 Hrelease.
      exact (plain_tap_sends
               (set_burst (Some (new_burst cfg g (triggerPosition geo)))
                  (set_defaultEmoji g (set_phase Idle c))) t0 t1 eq_refl Hrelease).
    + intros t' ev Hev. now apply step_surface_gone.
  - rewrite Hclose. cbn [fst snd].
    split; [reflexivity|]. split; [now rewrite surfaces_phase|].
    repeat (split; [reflexivity|]).
    intros t' ev Hev. now apply step_surface_gone.
Qed.

(** A report is made on a rejection and on nothing else. *)
Lemma step_reports c (input : Z * Event) :
  count_effects is_report (step cfg geo c input).2
  = if is_rejection input then 1%nat else 0%nat.
Proof.
  destruct input as [now ev], c as [ph de bu la].
  unfold step, fire_due, is_rejection. cbn [fst snd phase].
  destruct ph as [|deadline|]; [|destruct (deadline <=? now)|];
    destruct ev; cbn; try reflexivity;
    try (destruct bu as [[? ? ? []]|]; reflexivity);
    try (destruct (Throttle.spec_eligible _ _ _); reflexivity);
    try (unfold report_failure; destruct (onSendRoomReactionError cfg); reflexivity).
Qed.

Lemma run_reports inputs : forall c,
  count_effects is_report (run cfg geo inputs c).2
  = length (List.filter is_rejection inputs).
Proof.
  induction inputs as [|input rest IH]; intros c.
  - reflexivity.
  - rewrite run_cons. cbn [fst snd List.filter].
    rewrite count_effects_app, step_reports, IH.
    now destruct (is_rejection input).
Qed.

(** The timer changes the phase and nothing else. *)
Lemma fire_due_frame c (now : Z) :
  burst (fire_due geo now c).1 = burst c /\
  defaultEmoji (fire_due geo now c).1 = defaultEmoji c /\
  lastAccepted (fire_due geo now c).1 = lastAccepted c.
Proof.
  unfold fire_due. destruct (phase c) as [|deadline|]; auto.
  destruct (deadline <=? now); auto.
Qed.

(** C6.  The rejection of a send is handled by reporting it once: to the
    caller's handler with the error and the glyph when one is configured,
    otherwise as one log line.  The transition is a total function (there is
    no outcome in which the failure escapes it), it changes nothing of the
    controller, so the burst already shown stays as it is, and over any trace
    there are exactly as many reports as rejections. *)
Theorem send_failure_reported c (t : Z) (e : ErrorInfo) (g : string)
    (inputs : list (Z * Event)) :
  handle cfg geo t (SendRejected e g) c
  = (c, if onSendRoomReactionError cfg then [CallErrorHandler e g]
        else [LogError "Failed to send room reaction:" e]) /\
  List.filter is_report (step cfg geo c (t, SendRejected e g)).2
  = (if onSendRoomReactionError cfg then [CallErrorHandler e g]
     else [LogError "Failed to send room reaction:" e]) /\
  burst (step cfg geo c (t, SendRejected e g)).1 = burst c /\
  bursts geo (step cfg geo c (t, SendRejected e g)).1 = bursts geo c /\
  defaultEmoji (step cfg geo c (t, SendRejected e g)).1 = defaultEmoji c /\
  sends (step cfg geo c (t, SendRejected e g)).2 = [] /\
  count_effects is_report (run cfg geo inputs c).2
  = length (List.filter is_rejection inputs).
Proof.
  destruct (fire_due_frame c t) as (Hb & Hd & _).
  assert (step cfg geo c (t, SendRejected e g)
          = ((fire_due geo t c).1, (fire_due geo t c).2 ++ report_failure cfg e g))
    as Hstep.
  { unfold step. cbn [fst snd handle]. now destruct (fire_due geo t c). }
  assert (List.filter is_report (fire_due geo t c).2 = []
          /\ sends (fire_due geo t c).2 = []) as [Hquiet Hquiet'].
  { unfold fire_due. destruct (phase c) as [|deadline|]; auto.
    destruct (deadline <=? t); auto. }
  split; [reflexivity|]. rewrite Hstep. cbn [fst snd].
  rewrite List.filter_app, Hquiet, sends_app, Hquiet', !bursts_active, Hb, Hd.
  unfold report_failure.
  repeat split; try (destruct (onSendRoomReactionError cfg); reflexivity).
  apply run_reports.
Qed.

(** Bursts are hidden no more often than they are shown. *)
Lemma step_burst_balance c (input : Z * Event) :
  (count_effects is_hide (step cfg geo c input).2
   + bursts geo (step cfg geo c input).1
   <= count_effects is_show (step cfg geo c input).2 + bursts geo c)%nat.
Proof.
  rewrite !bursts_active. destruct input as [now ev], c as [ph de bu la].
  unfold step, fire_due. cbn [fst snd phase].
  destruct ph as [|deadline|]; [|destruct (deadline <=? now)|];
    destruct ev; cbn;
    try (destruct (Throttle.spec_eligible _ _ _); cbn);
    try (unfold report_failure; destruct (onSendRoomReactionError cfg); cbn);
    destruct bu as [[? ? ? []]|]; cbn; lia.
Qed.

Lemma run_burst_balance inputs : forall c,
  (count_effects is_hide (run cfg geo inputs c).2
   + bursts geo (run cfg geo inputs c).1
   <= count_effects is_show (run cfg geo inputs c).2 + bursts geo c)%nat.
Proof.
  induction inputs as [|input rest IH]; intros c.
  - cbn [run fst snd]. cbn. lia.
  - rewrite run_cons. cbn [fst snd]. rewrite !count_effects_app.
    pose proof (step_burst_balance c input).
    pose proof (IH (step cfg geo c input).1). lia.
Qed.

(** Completion of the burst animation: an active burst is deactivated, with
    one [HideBurst]; without an active burst nothing is hidden. *)
Lemma step_burst_complete c (t : Z) :
  bursts geo (step cfg geo c (t, BurstComplete)).1 = 0%nat /\
  count_effects is_hide (step cfg geo c (t, BurstComplete)).2 = bursts geo c.
Proof.
  rewrite !bursts_active. destruct c as [ph de bu la].
  unfold step, fire_due. cbn [fst snd phase].
  destruct ph as [|deadline|]; [|destruct (deadline <=? t)|];
    destruct bu as [[? ? ? []]|]; cbn; auto.
Qed.

(** C7.  In every state reached from the initial one the controller shows at
    most one surface and at most one burst; surfaces were opened exactly as
    often as they were closed, plus the one still shown; bursts were hidden no
    more often than shown.  A completion signal deactivates the active burst
    with exactly one [HideBurst], and a second completion signal hides
    nothing more. *)
Theorem single_surface_single_burst (inputs : list (Z * Event)) (t t' : Z) :
  let reached := run cfg geo inputs initial in
  let completed := step cfg geo reached.1 (t, BurstComplete) in
  (surfaces geo reached.1 <= 1)%nat /\
  (bursts geo reached.1 <= 1)%nat /\
  (count_effects is_open reached.2
   = count_effects is_closeSurface reached.2 + surfaces geo reached.1)%nat /\
  (count_effects is_hide reached.2 + bursts geo reached.1
   <= count_effects is_show reached.2)%nat /\
  bursts geo completed.1 = 0%nat /\
  count_effects is_hide completed.2 = bursts geo reached.1 /\
  count_effects is_hide (step cfg geo completed.1 (t', BurstComplete)).2 = 0%nat.
Proof.
  intros reached completed.
  pose proof (run_balance inputs initial) as Hsurf.
  pose proof (run_burst_balance inputs initial) as Hburst.
  fold reached in Hsurf, Hburst.
  change (surfaces geo initial) with 0%nat in Hsurf.
  change (bursts geo initial) with 0%nat in Hburst.
  destruct (step_burst_complete reached.1 t) as [Hdone Hhide].
  destruct (step_burst_complete completed.1 t') as [_ Hagain].
  fold completed in Hdone, Hhide. rewrite Hdone in Hagain.
  split; [rewrite surfaces_phase; destruct (phase reached.1); lia|].
  split; [rewrite bursts_active; destruct (burst reached.1) as [[? ? ? []]|]; cbn; lia|].
  split; [lia|]. split; [lia|]. auto.
Qed.

(** The inbound scenario of the test-suite: thumbs-up at 0, heart at 150 and
    party at 201 with the 200 ms window show the thumbs-up, then the party. *)
Example inbound_scenario :
  List.filter is_show
    (run reference_config test_geometry
       [(0, Inbound "👍"); (150, Inbound "❤️"); (201, Inbound "🎉")] initial).2
  = [ShowBurst (new_burst reference_config "👍" (defaultBurstPosition test_geometry));
     ShowBurst (new_burst reference_config "🎉" (defaultBurstPosition test_geometry))].
Proof. reflexivity. Qed.

End RoomReactionFacts.

(** The scenario of the specification, on the reference configuration: long
    press, then a click on the heart in the surface. *)
Lemma surface_terminal_event_witness :
  RoomReaction.sends
    (RoomReaction.step RoomReaction.reference_config RoomReaction.test_geometry
       (RoomReaction.set_phase RoomReaction.SurfaceOpen RoomReaction.initial)
       (500, RoomReaction.SurfaceSelect "❤️")).2
  = ["❤️"] /\
  RoomReaction.sends
    (RoomReaction.run RoomReaction.reference_config RoomReaction.test_geometry
       [(1000, RoomReaction.PressStart); (1100, RoomReaction.PressEnd)]
       (RoomReaction.step RoomReaction.reference_config RoomReaction.test_geometry
          (RoomReaction.set_phase RoomReaction.SurfaceOpen RoomReaction.initial)
          (500, RoomReaction.SurfaceSelect "❤️")).1).2
  = ["❤️"] /\
  RoomReaction.defaultEmoji
    (RoomReaction.step RoomReaction.reference_config RoomReaction.test_geometry
       (RoomReaction.set_phase RoomReaction.SurfaceOpen RoomReaction.initial)
       (500, RoomReaction.SurfaceClose)).1
  = "👍" /\
  RoomReaction.step RoomReaction.reference_config RoomReaction.test_geometry
    (RoomReaction.step RoomReaction.reference_config RoomReaction.test_geometry
       (RoomReaction.set_phase RoomReaction.SurfaceOpen RoomReaction.initial)
       (500, RoomReaction.SurfaceClose)).1
    (600, RoomReaction.SurfaceSelect "🎉")
  = ((RoomReaction.step RoomReaction.reference_config RoomReaction.test_geometry
        (RoomReaction.set_phase RoomReaction.SurfaceOpen RoomReaction.initial)
        (500, RoomReaction.SurfaceClose)).1, []).
Proof.
  destruct (surface_terminal_event RoomReaction.reference_config
              RoomReaction.test_geometry
              (RoomReaction.set_phase RoomReaction.SurfaceOpen RoomReaction.initial)
              500 "❤️" eq_refl) as [Hselected Hclosed].
  cbv zeta in Hselected, Hclosed.
  destruct Hselected as (_ & _ & _ & Hsend & _ & Htap & _).
  destruct Hclosed as (_ & _ & _ & _ & Hdefault & Hgone).
  split; [exact Hsend|]. split; [apply Htap; reflexivity|].
  split; [exact Hdefault|]. apply Hgone. reflexivity.
Defined.

(** A tap on the fresh controller, with an inbound reaction arriving while
    the trigger is down. *)
Lemma tap_sends_default_witness :
  RoomReaction.sends
    (RoomReaction.run RoomReaction.reference_config RoomReaction.test_geometry
       [(0, RoomReaction.PressStart); (50, RoomReaction.Inbound "🎉");
        (120, RoomReaction.PressEnd)]
       RoomReaction.initial).2
  = ["👍"].
Proof.
  refine (proj1 (tap_sends_default RoomReaction.reference_config
                   RoomReaction.test_geometry RoomReaction.initial 0 120
                   [(50, RoomReaction.Inbound "🎉")] eq_refl _ _)).
  - apply List.Forall_cons; [split; reflexivity|apply List.Forall_nil].
  - reflexivity.
Defined.

(** A press held for 500 ms on the fresh controller, then released. *)
Lemma long_press_opens_surface_witness :
  RoomReaction.phase
    (RoomReaction.run RoomReaction.reference_config RoomReaction.test_geometry
       [(0, RoomReaction.PressStart); (500, RoomReaction.Tick);
        (620, RoomReaction.PressEnd)]
       RoomReaction.initial).1
  = RoomReaction.SurfaceOpen.
Proof.
  refine (proj1 (long_press_opens_surface RoomReaction.reference_config
                   RoomReaction.test_geometry RoomReaction.initial 0 500
                   RoomReaction.Tick [] [(620, RoomReaction.PressEnd)]
                   eq_refl _ _ eq_refl _)).
  - apply List.Forall_nil.
  - discriminate.
  - apply List.Forall_cons; [reflexivity|apply List.Forall_nil].
Defined.

(* ===================================================================== *)
(** ** Further properties of the throttle wrapper *)
(* ===================================================================== *)

Section ThrottleTraces.

Import Throttle.

Context {Args : Type}.

Implicit Types (w : World Args) (f : positive) (args : Args).

Lemma run_step f (d : Z) args (now : Z) (rest : list (Z * Args)) w :
  run f d ((now, args) :: rest) w
  = ((throttled f d args now w).1 :: (run f d rest (throttled f d args now w).2).1,
     (run f d rest (throttled f d args now w).2).2).
Proof.
  cbn [run]. destruct (throttled f d args now w) as [o w1]. cbn [fst snd].
  now destruct (run f d rest w1).
Qed.

(** The three ways an invocation can go, with the state of the record
    afterwards. *)
Lemma throttled_cases f (W : Z) args (now : Z) w (last : option Z) :
  tracks f W last w ->
  (last = None \/ (exists t, last = Some t /\ W <= now - t)) /\
  (throttled f W args now w).1 = Forwarded /\
  tracks f W (Some now) (throttled f W args now w).2
  \/
  (exists t, last = Some t /\ now - t < W) /\
  (throttled f W args now w).1 = Dropped /\
  (throttled f W args now w).2 = w.
Proof.
  intros Htr. destruct last as [t|].
  - unfold tracks in Htr. cbn in Htr.
    destruct (Z.lt_ge_cases (now - t) W) as [Hlt|Hge].
    + right. rewrite (throttled_drop _ _ _ _ _ _ Htr Hlt). eauto.
    + left. rewrite (throttled_pass _ _ _ _ _ _ Htr Hge).
      split; [eauto|]. split; [reflexivity|]. apply lookup_after_call.
  - left. rewrite (throttled_first _ _ _ _ _ Htr).
    split; [eauto|]. split; [reflexivity|]. apply lookup_after_call.
Qed.

Lemma spaced_after (W : Z) (last : option Z) (invocations : list (Z * Args)) :
  forall f w,
    tracks f W last w ->
    spaced W (option_list last
              ++ forwarded_times invocations (run f W invocations w).1).
Proof.
  revert last.
  induction invocations as [|[now args] rest IH]; intros last f w Htr.
  - destruct last; cbn; auto.
  - rewrite run_step. cbn [fst snd].
    destruct (throttled_cases f W args now w last Htr)
      as [(Hlast & -> & Htr') | ((t & -> & Hlt) & -> & ->)].
    + cbn [forwarded_times]. specialize (IH (Some now) f _ Htr').
      destruct Hlast as [-> | (t & -> & Hge)]; cbn [option_list app] in *.
      * exact IH.
      * cbn [spaced]. split; [exact Hge|exact IH].
    + cbn [forwarded_times]. exact (IH (Some t) f w Htr).
Qed.

(** X1.  Whatever the clock readings of the invocations, any two successive
    accepted invocations of a callback wrapped with window [W] lie at least
    [W] apart. *)
Theorem accepted_calls_spaced f (W : Z) (invocations : list (Z * Args)) w :
  throttledFns w !! f = None ->
  spaced W (forwarded_times invocations (run f W invocations w).1).
Proof. intros Hnone. exact (spaced_after W None invocations f w Hnone). Qed.

Lemma all_forwarded_after (W : Z) (invocations : list (Z * Args)) :
  forall f w (last : option Z),
    tracks f W last w ->
    spaced W (option_list last ++ invocations.*1) ->
    (run f W invocations w).1 = replicate (length invocations) Forwarded.
Proof.
  induction invocations as [|[now args] rest IH]; intros f w last Htr Hsp.
  - reflexivity.
  - rewrite run_step. cbn [fst snd length replicate].
    assert (spaced W (option_list (Some now) ++ rest.*1)) as Hrest.
    { destruct last; cbn in Hsp |- *; tauto. }
    destruct (throttled_cases f W args now w last Htr)
      as [(_ & -> & Htr') | ((t & -> & Hlt) & _)].
    + f_equal. exact (IH f _ (Some now) Htr' Hrest).
    + cbn in Hsp. lia.
Qed.

(** X2.  Invocations that arrive at least [W] apart are all forwarded, each
    with its own arguments: the wrapper loses no call of a caller that keeps
    to the window. *)
Theorem spaced_calls_all_forwarded f (W : Z) (invocations : list (Z * Args)) w :
  throttledFns w !! f = None ->
  spaced W invocations.*1 ->
  (run f W invocations w).1 = replicate (length invocations) Forwarded /\
  calls (run f W invocations w).2
  = calls w ++ ((fun inv => (f, inv.2)) <$> invocations).
Proof.
  intros Hnone Hsp.
  pose proof (all_forwarded_after W invocations f w None Hnone Hsp) as Hall.
  split; [exact Hall|]. rewrite run_calls, Hall. f_equal.
  clear. induction invocations as [|[now args] rest IH]; [reflexivity|].
  cbn. now rewrite IH.
Qed.

(** X3.  After a call was accepted, every invocation that arrives before the
    window of the record has elapsed is dropped, however many there are, and
    together they leave the world as it was. *)
Theorem quiet_window f (d : Z) (info : ThrottleInfo)
    (invocations : list (Z * Args)) w :
  throttledFns w !! f = Some info ->
  Forall (fun inv => inv.1 - lastCall info < delay info) invocations ->
  run f d invocations w = (replicate (length invocations) Dropped, w).
Proof.
  intros Hinfo Hall. induction Hall as [|[now args] rest Hlt _ IH].
  - reflexivity.
  - rewrite run_step, (throttled_drop _ _ _ _ _ _ Hinfo Hlt). cbn [fst snd].
    now rewrite IH.
Qed.

(** An invocation of a registered callback does not look at the delay that
    its wrapper was made with. *)
Lemma throttled_delay_ignored f (d d' : Z) args (now : Z) w :
  is_Some (throttledFns w !! f) ->
  throttled f d args now w = throttled f d' args now w.
Proof. intros [info Hinfo]. unfold throttled. now rewrite Hinfo. Qed.

(** An invocation keeps the callback registered, with the key and the delay
    that the record had. *)
Lemma throttled_keeps_record f (d : Z) args (now : Z) w (info : ThrottleInfo) :
  throttledFns w !! f = Some info ->
  exists info',
    throttledFns (throttled f d args now w).2 !! f = Some info' /\
    fn info' = fn info /\ delay info' = delay info.
Proof.
  intros Hinfo. unfold throttled. rewrite Hinfo.
  destruct (now - lastCall info <? delay info); cbn [snd].
  - eauto.
  - eexists. split; [apply lookup_after_call|]. auto.
Qed.

(** X4.  The delay of a callback is fixed by its first invocation: once a
    record exists, its delay (and its key) stay what they are over any
    further invocations, and wrapping the same callback with another delay
    changes no outcome and no state. *)
Theorem first_delay_wins f (d d' : Z) (info : ThrottleInfo)
    (invocations : list (Z * Args)) w :
  throttledFns w !! f = Some info ->
  run f d invocations w = run f d' invocations w /\
  exists info',
    throttledFns (run f d invocations w).2 !! f = Some info' /\
    fn info' = fn info /\ delay info' = delay info.
Proof.
  revert w info.
  induction invocations as [|[now args] rest IH]; intros w info Hinfo.
  - split; [reflexivity|]. cbn. eauto.
  - rewrite !run_step. cbn [fst snd].
    rewrite <- (throttled_delay_ignored f d d') by eauto.
    destruct (throttled_keeps_record f d args now w info Hinfo)
      as (info1 & Hinfo1 & Hfn1 & Hdelay1).
    destruct (IH _ info1 Hinfo1) as (Hrun & info' & Hinfo' & Hfn' & Hdelay').
    split; [now rewrite Hrun|].
    exists info'. split; [exact Hinfo'|]. split; congruence.
Qed.

(** An invocation of [f] leaves the records of other callbacks alone. *)
Lemma throttled_other f f' (d : Z) args (now : Z) w :
  f <> f' ->
  throttledFns (throttled f d args now w).2 !! f' = throttledFns w !! f'.
Proof.
  intros Hne. unfold throttled.
  destruct (throttledFns w !! f) as [info|];
    [destruct (now - lastCall info <? delay info)|];
    cbn [snd call set_info throttledFns]; try reflexivity;
    now apply lookup_insert_ne.
Qed.

Lemma run_other f f' (d : Z) (invocations : list (Z * Args)) : forall w,
  f <> f' ->
  throttledFns (run f d invocations w).2 !! f' = throttledFns w !! f'.
Proof.
  induction invocations as [|[now args] rest IH]; intros w Hne.
  - reflexivity.
  - rewrite run_step. cbn [snd]. rewrite IH by exact Hne.
    now apply throttled_other.
Qed.

(** The outcomes of a wrapper depend on the world only through the record of
    its own callback. *)
Lemma run_outcomes_local f (d : Z) (invocations : list (Z * Args)) : forall w1 w2,
  throttledFns w1 !! f = throttledFns w2 !! f ->
  (run f d invocations w1).1 = (run f d invocations w2).1 /\
  throttledFns (run f d invocations w1).2 !! f
  = throttledFns (run f d invocations w2).2 !! f.
Proof.
  induction invocations as [|[now args] rest IH]; intros w1 w2 Hsame.
  - split; [reflexivity|exact Hsame].
  - rewrite !run_step. cbn [fst snd].
    assert ((throttled f d args now w1).1 = (throttled f d args now w2).1
            /\ throttledFns (throttled f d args now w1).2 !! f
               = throttledFns (throttled f d args now w2).2 !! f) as [Ho Hw].
    { unfold throttled. rewrite Hsame.
      destruct (throttledFns w2 !! f) as [info|] eqn:Hinfo;
        [destruct (now - lastCall info <? delay info)|]; cbn [fst snd];
        (split; [reflexivity|]); rewrite ?lookup_after_call; congruence. }
    destruct (IH _ _ Hw) as [Hos Hfinal]. split; [congruence|exact Hfinal].
Qed.

(** X5.  Wrappers of different callbacks do not interfere: invocations of
    [f] leave the record of another callback [f'] as it is, and the outcomes
    of any later invocations of [f'] are those it would have had without
    them. *)
Theorem callbacks_independent f f' (d d' : Z)
    (invocations later : list (Z * Args)) w :
  f <> f' ->
  throttledFns (run f d invocations w).2 !! f' = throttledFns w !! f' /\
  (run f' d' later (run f d invocations w).2).1 = (run f' d' later w).1.
Proof.
  intros Hne. pose proof (run_other f f' d invocations w Hne) as Hsame.
  split; [exact Hsame|]. now apply run_outcomes_local.
Qed.

Lemma throttled_dom f (d : Z) args (now : Z) w :
  dom (throttledFns (throttled f d args now w).2) = {[f]} ∪ dom (throttledFns w).
Proof.
  unfold throttled. destruct (throttledFns w !! f) as [info|] eqn:Hinfo;
    [destruct (now - lastCall info <? delay info)|];
    cbn [snd call set_info throttledFns]; rewrite ?dom_insert_L; try reflexivity.
  apply (elem_of_dom_2 (D := gset positive)) in Hinfo. set_solver.
Qed.

(** X6.  The map only grows: no invocation removes a record, and a run of a
    wrapper adds at most the key of its own callback, which is there from the
    first invocation on. *)
Theorem records_never_removed f (d : Z) (invocations : list (Z * Args)) w :
  dom (throttledFns (run f d invocations w).2)
  = (if invocations is [] then ∅ else {[f]}) ∪ dom (throttledFns w).
Proof.
  revert w. induction invocations as [|[now args] rest IH]; intros w.
  - cbn. set_solver.
  - rewrite run_step. cbn [snd]. rewrite IH, throttled_dom.
    destruct rest; set_solver.
Qed.

End ThrottleTraces.

(* ===================================================================== *)
(** ** Further properties of the emoji picker *)
(* ===================================================================== *)

Section EmojiPickerClicks.

Import EmojiPicker.

Lemma dispatch_button_paths (g : string) (path : list nat) (cs : list Callback) :
  dispatch (emoji_button g) path = Some cs -> path = [] \/ path = [0%nat].
Proof.
  destruct path as [|k rest]; [now left|]. cbn.
  destruct k as [|k]; cbn; [|discriminate].
  destruct rest as [|k' rest']; cbn; [now right|discriminate].
Qed.

(** X7.  The open picker has four kinds of click target and no other: the
    backdrop, which invokes [onClose] alone; the panel outside its buttons,
    which invokes nothing; and a glyph button or the text inside it, which
    invoke [onEmojiSelect] with the glyph of that button alone.  No click
    invokes two callbacks, and none invokes both [onClose] and
    [onEmojiSelect]. *)
Theorem click_targets (props : EmojiPickerProps) (fragment : list Node)
    (path : list nat) (cs : list Callback) :
  EmojiPicker props = Some fragment ->
  click fragment path = Some cs ->
  (path = [0%nat] /\ cs = [OnClose]) \/
  (path = [1%nat] /\ cs = []) \/
  (exists (i : nat) (g : string),
      emojis !! i = Some g /\ cs = [OnEmojiSelect g] /\
      (path = [1%nat; i] \/ path = [1%nat; i; 0%nat])).
Proof.
  destruct props as [[] pos]; unfold EmojiPicker; cbn [isOpen position negb];
    [|discriminate].
  intros [= <-]. destruct path as [|r rest]; cbn [click]; [discriminate|].
  destruct r as [|[|r]]; cbn [lookup list_lookup]; [| |discriminate].
  - destruct rest as [|j rest']; cbn; [|discriminate].
    intros [= <-]. now left.
  - destruct rest as [|i rest']; cbn [dispatch].
    + intros [= <-]. right. now left.
    + cbn [panel children_of]. rewrite button_lookup.
      destruct (emojis !! i) as [g|] eqn:Hg;
        cbn [fmap option_fmap option_map]; [|discriminate].
      destruct (dispatch (emoji_button g) rest') as [cs'|] eqn:Hd; [|discriminate].
      intros [= <-]. right. right. exists i, g.
      pose proof (dispatch_button_paths g rest' cs' Hd) as Hpath.
      apply dispatch_button in Hd as ->.
      split; [exact Hg|]. split; [reflexivity|].
      destruct Hpath as [-> | ->]; auto.
Qed.

(** X8.  Buttons and palette glyphs correspond one to one: each palette glyph
    has a button whose click selects it, and two buttons that select the same
    glyph are the same button. *)
Theorem buttons_match_palette (pos : Position) :
  (forall g : string,
     g ∈ emojis ->
     exists i : nat,
       click [backdrop; panel pos] [1%nat; i] = Some [OnEmojiSelect g]) /\
  (forall (i j : nat) (g : string),
     click [backdrop; panel pos] [1%nat; i] = Some [OnEmojiSelect g] ->
     click [backdrop; panel pos] [1%nat; j] = Some [OnEmojiSelect g] ->
     i = j).
Proof.
  assert (forall (i : nat) (g : string),
            click [backdrop; panel pos] [1%nat; i] = Some [OnEmojiSelect g] ->
            emojis !! i = Some g) as Hbutton.
  { intros i g. cbn [click lookup list_lookup dispatch panel children_of].
    rewrite button_lookup.
    destruct (emojis !! i) as [g'|]; cbn; [|discriminate]. congruence. }
  split.
  - intros g Hin. apply list_elem_of_lookup_1 in Hin as [i Hi].
    exists i. now apply click_glyph.
  - intros i j g Hi%Hbutton Hj%Hbutton.
    eapply NoDup_lookup; [exact palette_NoDup| |]; eassumption.
Qed.


End EmojiPickerClicks.

(* ===================================================================== *)
(** ** Properties of the story generators *)
(* ===================================================================== *)

Section StoriesFacts.

Import Stories.

Lemma advance_0 (c : Clock) : advance 0 c = c.
Proof. destruct c as [r t]. unfold advance. cbn. f_equal. lia. Qed.

Lemma advance_advance (a b : nat) (c : Clock) :
  advance a (advance b c) = advance (b + a) c.
Proof. unfold advance. cbn. f_equal. lia. Qed.

Lemma Array_from_go_step {A : Type} (f : nat -> Clock -> A * Clock)
    (i n : nat) (c : Clock) :
  Array_from_go f i (S n) c
  = ((f i c).1 :: (Array_from_go f (S i) n (f i c).2).1,
     (Array_from_go f (S i) n (f i c).2).2).
Proof.
  cbn [Array_from_go]. destruct (f i c) as [a c1]. cbn [fst snd].
  now destruct (Array_from_go f (S i) n c1).
Qed.

(** Element [k] of the array is made by the call for index [k], at the clock
    that the calls before it have left. *)
Lemma Array_from_go_lookup {A : Type} (f : nat -> Clock -> A * Clock) (r : nat) :
  (forall i c, (f i c).2 = advance r c) ->
  forall (n i : nat) (c : Clock),
    (Array_from_go f i n c).2 = advance (r * n) c /\
    length (Array_from_go f i n c).1 = n /\
    forall k : nat,
      (k < n)%nat ->
      (Array_from_go f i n c).1 !! k = Some (f (i + k)%nat (advance (r * k) c)).1.
Proof.
  intros Hf. induction n as [|n IH]; intros i c.
  - cbn. rewrite Nat.mul_0_r, advance_0. repeat split. intros k Hk. lia.
  - rewrite Array_from_go_step. cbn [fst snd].
    destruct (IH (S i) (f i c).2) as (Hclock & Hlen & Hlook).
    rewrite Hf in Hclock, Hlen, Hlook. rewrite Hf.
    split; [|split].
    + rewrite Hclock, advance_advance. f_equal. lia.
    + cbn. now rewrite Hlen.
    + intros [|k] Hk.
      * cbn. now rewrite Nat.mul_0_r, advance_0, Nat.add_0_r.
      * rewrite lookup_cons. rewrite (Hlook k) by lia.
        rewrite advance_advance.
        replace (r + r * k)%nat with (r * S k)%nat by lia.
        now replace (S i + k)%nat with (i + S k)%nat by lia.
Qed.

Lemma default_message_clock (i : nat) (c : Clock) :
  (default_message i c).2 = advance 2 c.
Proof. unfold default_message, advance. cbn. f_equal. lia. Qed.

Lemma initial_message_clock (i : nat) (c : Clock) :
  (initial_message i c).2 = advance 1 c.
Proof. unfold initial_message, advance. cbn. f_equal. lia. Qed.

Lemma serial_inj (i j : nat) :
  "msg_" +:+ pretty (i + 1)%nat = "msg_" +:+ pretty (j + 1)%nat -> i = j.
Proof.
  intros H. apply String.app_inj in H. apply pretty_nat_inj in H. lia.
Qed.

Lemma serials_upto_NoDup (n : nat) : NoDup (serials_upto n).
Proof.
  unfold serials_upto. apply NoDup_fmap_2_strong; [|apply NoDup_seq].
  intros i j _ _. apply serial_inj.
Qed.

Lemma serials_upto_S (n : nat) :
  serials_upto (S n) = serials_upto n ++ ["msg_" +:+ pretty (n + 1)%nat].
Proof. unfold serials_upto. now rewrite seq_S, fmap_app. Qed.

(** The serials of a generated array whose map function names message [i]
    [msg_(i+1)]. *)
Lemma Array_from_serials (f : nat -> Clock -> MessageOverrides * Clock) :
  (forall i c, serial (f i c).1 = "msg_" +:+ pretty (i + 1)%nat) ->
  forall (n i : nat) (c : Clock),
    serial <$> (Array_from_go f i n c).1
    = (fun j => "msg_" +:+ pretty (j + 1)%nat) <$> seq i n.
Proof.
  intros Hf. induction n as [|n IH]; intros i c; [reflexivity|].
  rewrite Array_from_go_step. cbn [fst snd fmap list_fmap seq].
  f_equal; [apply Hf|apply IH].
Qed.

Lemma default_message_fields (i : nat) (c : Clock) :
  (default_message i c).1
  = {| serial := "msg_" +:+ pretty (i + 1)%nat;
       clientId := if (i mod 4 =? 0)%nat then "user1"
                   else "user" +:+ pretty (i mod 3 + 2)%nat;
       text := if (i mod 5 =? 0)%nat
               then "This is a much longer message to test text wrapping and layout. Message number "
                    +:+ pretty (i + 1)%nat
                    +:+ " with lots of content to see how it displays in the chat interface."
               else "Message " +:+ pretty (i + 1)%nat;
       createdAt := readings c (taken c) - 1000 * 60 * (25 - Z.of_nat i);
       updatedAt := Some (readings c (S (taken c)) - 1000 * 60 * (25 - Z.of_nat i));
       reactions := Some emptyMessageReactions |}.
Proof. reflexivity. Qed.

Lemma Array_from_lookup_Some {A : Type} (f : nat -> Clock -> A * Clock)
    (r n : nat) (c : Clock) (i : nat) (a : A) :
  (forall i c, (f i c).2 = advance r c) ->
  (Array_from n f c).1 !! i = Some a ->
  (i < n)%nat /\ a = (f i (advance (r * i) c)).1.
Proof.
  intros Hf Ha. unfold Array_from in Ha.
  destruct (Array_from_go_lookup f r Hf n 0 c) as (_ & Hlen & Hlook).
  pose proof (lookup_lt_Some _ _ _ Ha) as Hi. rewrite Hlen in Hi.
  split; [exact Hi|]. rewrite (Hlook i Hi) in Ha. now injection Ha as <-.
Qed.

Lemma Array_from_clock {A : Type} (f : nat -> Clock -> A * Clock)
    (r n : nat) (c : Clock) :
  (forall i c, (f i c).2 = advance r c) ->
  (Array_from n f c).2 = advance (r * n) c.
Proof. intros Hf. now destruct (Array_from_go_lookup f r Hf n 0 c). Qed.

Lemma Default_messages_lookup (c : Clock) (i : nat) (m : MessageOverrides) :
  (Default_messages c).1 !! i = Some m ->
  (i < 25)%nat /\ m = (default_message i (advance (2 * i) c)).1.
Proof.
  unfold Default_messages.
  apply (Array_from_lookup_Some default_message 2 25 c i m default_message_clock).
Qed.

(** X10.  The messages of the [Default] story carry the serials
    [msg_1 .. msg_25] in this order, whatever the clock reads; these are
    pairwise distinct, and they stay so for any other array length. *)
Theorem default_serials_distinct (c : Clock) :
  serial <$> (Default_messages c).1 = serials_upto 25 /\
  NoDup (serial <$> (Default_messages c).1) /\
  forall n : nat, NoDup (serial <$> (Array_from n default_message c).1).
Proof.
  assert (forall n, serial <$> (Array_from n default_message c).1 = serials_upto n)
    as Hserials.
  { intros n. unfold Array_from, serials_upto.
    apply Array_from_serials. intros i c'. now rewrite default_message_fields. }
  split; [apply Hserials|]. split.
  - unfold Default_messages. rewrite Hserials. apply serials_upto_NoDup.
  - intros n. rewrite Hserials. apply serials_upto_NoDup.
Qed.

(** X11.  Every message of the [Default] story is written by one of
    [user1 .. user4], and by [user1], the current user of the story, exactly
    when its index is a multiple of 4. *)
Theorem default_authors (c : Clock) (i : nat) (m : MessageOverrides) :
  (Default_messages c).1 !! i = Some m ->
  clientId m ∈ ["user1"; "user2"; "user3"; "user4"] /\
  (clientId m = "user1" <-> (i mod 4)%nat = 0%nat).
Proof.
  intros Hm. apply Default_messages_lookup in Hm as [_ ->].
  rewrite default_message_fields. cbn [clientId].
  destruct (Nat.eqb_spec (i mod 4) 0) as [H4|H4].
  - split; [set_solver|tauto].
  - pose proof (Nat.mod_upper_bound i 3 ltac:(lia)) as H3.
    destruct (i mod 3)%nat as [|[|[|k]]]; [| | |lia];
      (split; [vm_compute; set_solver|]);
      (split; [intros H; vm_compute in H; discriminate|tauto]).
Qed.

(** X12.  When the clock does not run backwards, the messages of the
    [Default] story are in strictly increasing order of creation, none is
    updated before it is created, and all of them lie in the past of the
    next clock reading. *)
Theorem default_chronological (c : Clock) :
  monotone c ->
  (forall (i j : nat) (a b : MessageOverrides),
     (Default_messages c).1 !! i = Some a ->
     (Default_messages c).1 !! j = Some b ->
     (i < j)%nat -> createdAt a < createdAt b) /\
  (forall (i : nat) (a : MessageOverrides),
     (Default_messages c).1 !! i = Some a ->
     (exists u : Z, updatedAt a = Some u /\ createdAt a <= u) /\
     createdAt a < readings c (taken (Default_messages c).2)).
Proof.
  intros Hmono. split.
  - intros i j a b Ha Hb Hij.
    apply Default_messages_lookup in Ha as [_ ->].
    apply Default_messages_lookup in Hb as [_ ->].
    rewrite !default_message_fields. cbn [createdAt advance readings taken].
    pose proof (Hmono (taken c + 2 * i)%nat (taken c + 2 * j)%nat ltac:(lia)).
    lia.
  - intros i a Ha. apply Default_messages_lookup in Ha as [Hi ->].
    rewrite default_message_fields. cbn [createdAt updatedAt advance readings taken].
    split.
    + eexists. split; [reflexivity|].
      pose proof (Hmono (taken c + 2 * i)%nat (S (taken c + 2 * i)) ltac:(lia)).
      lia.
    + unfold Default_messages.
      rewrite (Array_from_clock default_message 2 25 c default_message_clock).
      cbn [advance readings taken].
      pose proof (Hmono (taken c + 2 * i)%nat (taken c + 2 * 25)%nat ltac:(lia)).
      lia.
Qed.

Lemma run_story_cons (fmt : Z -> string) (ev : StoryEvent)
    (evs : list StoryEvent) (s : AutoScroll) (c : Clock) :
  run fmt (ev :: evs) s c
  = run fmt evs (handle fmt ev s c).1 (handle fmt ev s c).2.
Proof. cbn [run]. now destruct (handle fmt ev s c). Qed.

Lemma interval_callback_fields (fmt : Z -> string) (s : AutoScroll) (c : Clock) :
  interval_callback fmt s c
  = ({| messages :=
          messages s
          ++ [{| serial := "msg_" +:+ pretty (messageCountRef s + 1)%nat;
                 clientId :=
                   if ((messageCountRef s + 1) mod 3 =? 0)%nat then "user1"
                   else if ((messageCountRef s + 1) mod 2 =? 0)%nat then "user2"
                        else "user3";
                 text := "Message " +:+ pretty (messageCountRef s + 1)%nat
                         +:+ " - " +:+ fmt (readings c (taken c));
                 createdAt := readings c (S (taken c));
                 updatedAt := None; reactions := None |}];
        isRunning := isRunning s;
        messageCountRef := (messageCountRef s + 1)%nat;
        interval := interval s |},
     advance 2 c).
Proof. unfold interval_callback, advance. cbn. do 2 f_equal. lia. Qed.

Lemma mount_fields (c : Clock) :
  mount c
  = ({| messages := (Array_from 8 initial_message c).1; isRunning := true;
        messageCountRef := 8; interval := true |},
     advance 8 c).
Proof.
  unfold mount.
  pose proof (Array_from_clock initial_message 1 8 c initial_message_clock) as Hclock.
  destruct (Array_from 8 initial_message c) as [initial c1].
  cbn [fst snd] in Hclock |- *. now rewrite Hclock.
Qed.

Lemma initial_message_fields (i : nat) (c : Clock) :
  (initial_message i c).1
  = {| serial := "msg_" +:+ pretty (i + 1)%nat;
       clientId := if (i mod 2 =? 0)%nat then "user1" else "user2";
       text := "Initial message " +:+ pretty (i + 1)%nat;
       createdAt := readings c (taken c) - 1000 * 60 * (8 - Z.of_nat i);
       updatedAt := None; reactions := None |}.
Proof. reflexivity. Qed.

(** One event keeps the counter equal to the number of messages, the serials
    in sequence, and the interval registered exactly while running. *)
Lemma handle_keeps_numbering (fmt : Z -> string) (ev : StoryEvent)
    (s : AutoScroll) (c : Clock) :
  messageCountRef s = length (messages s) ->
  serial <$> messages s = serials_upto (length (messages s)) ->
  interval s = isRunning s ->
  messageCountRef (handle fmt ev s c).1 = length (messages (handle fmt ev s c).1) /\
  serial <$> messages (handle fmt ev s c).1
  = serials_upto (length (messages (handle fmt ev s c).1)) /\
  interval (handle fmt ev s c).1 = isRunning (handle fmt ev s c).1 /\
  (length (messages s) <= length (messages (handle fmt ev s c).1))%nat.
Proof.
  intros Hcount Hserials Hinterval. destruct ev; cbn [handle].
  - destruct (interval s) eqn:Hon;
      [|cbn [fst]; split; [auto|split; [auto|split; [congruence|lia]]]].
    rewrite interval_callback_fields.
    cbn [fst messages messageCountRef interval isRunning].
    rewrite length_app, fmap_app, Hserials. cbn [length fmap list_fmap serial].
    replace (length (messages s) + 1)%nat with (S (length (messages s))) by lia.
    rewrite serials_upto_S, Hcount.
    split; [lia|]. split; [reflexivity|]. split; [congruence|lia].
  - cbn. auto.
Qed.

Lemma run_keeps_numbering (fmt : Z -> string) (evs : list StoryEvent) :
  forall (s : AutoScroll) (c : Clock),
    messageCountRef s = length (messages s) ->
    serial <$> messages s = serials_upto (length (messages s)) ->
    interval s = isRunning s ->
    messageCountRef (run fmt evs s c).1 = length (messages (run fmt evs s c).1) /\
    serial <$> messages (run fmt evs s c).1
    = serials_upto (length (messages (run fmt evs s c).1)) /\
    interval (run fmt evs s c).1 = isRunning (run fmt evs s c).1 /\
    (length (messages s) <= length (messages (run fmt evs s c).1))%nat.
Proof.
  induction evs as [|ev rest IH]; intros s c Hcount Hserials Hinterval.
  - cbn. auto.
  - rewrite run_story_cons.
    destruct (handle_keeps_numbering fmt ev s c Hcount Hserials Hinterval)
      as (Hcount' & Hserials' & Hinterval' & Hgrow).
    destruct (IH _ (handle fmt ev s c).2 Hcount' Hserials' Hinterval')
      as (? & ? & ? & ?).
    repeat split; auto. lia.
Qed.

Lemma mount_numbering (c : Clock) :
  length (messages (mount c).1) = 8%nat /\
  serial <$> messages (mount c).1 = serials_upto 8.
Proof.
  rewrite mount_fields. cbn [fst messages].
  destruct (Array_from_go_lookup initial_message 1 initial_message_clock 8 0 c)
    as (_ & Hlen & _).
  split; [exact Hlen|].
  unfold Array_from, serials_upto. apply Array_from_serials.
  intros i c'. now rewrite initial_message_fields.
Qed.

(** X13.  In every state that the [AutoScrollComparison] decorator reaches,
    however its interval fires and its button is clicked, the counter equals
    the number of messages, the messages carry the serials [msg_1], [msg_2],
    ... in order and so pairwise distinct ones, an interval is registered
    exactly while the story is running, and the eight initial messages are
    still counted. *)
Theorem autoscroll_serials_distinct (fmt : Z -> string)
    (evs : list StoryEvent) (c : Clock) :
  let reached := (run fmt evs (mount c).1 (mount c).2).1 in
  messageCountRef reached = length (messages reached) /\
  serial <$> messages reached = serials_upto (length (messages reached)) /\
  NoDup (serial <$> messages reached) /\
  interval reached = isRunning reached /\
  (8 <= length (messages reached))%nat.
Proof.
  cbv zeta. destruct (mount_numbering c) as [Hlen Hserials].
  destruct (run_keeps_numbering fmt evs (mount c).1 (mount c).2)
    as (Hcount' & Hserials' & Hinterval' & Hgrow).
  - rewrite Hlen. now rewrite mount_fields.
  - now rewrite Hlen.
  - now rewrite mount_fields.
  - split; [exact Hcount'|]. split; [exact Hserials'|].
    split; [rewrite Hserials'; apply serials_upto_NoDup|].
    split; [exact Hinterval'|]. lia.
Qed.

Lemma handle_appends (fmt : Z -> string) (ev : StoryEvent)
    (s : AutoScroll) (c : Clock) :
  messages s `prefix_of` messages (handle fmt ev s c).1 /\
  (length (messages (handle fmt ev s c).1)
   <= length (messages s) + (if is_fire ev then 1 else 0))%nat.
Proof.
  destruct ev; cbn [handle is_fire].
  - destruct (interval s); [rewrite interval_callback_fields|];
      cbn [fst messages].
    + split; [now apply prefix_app_r|]. rewrite length_app. cbn. lia.
    + split; [reflexivity|lia].
  - cbn. split; [reflexivity|lia].
Qed.

(** X14.  The decorator only ever appends: the messages it had stay the
    first messages of any later state, and at most one is added per firing of
    the interval.  While no interval is registered, firings change nothing
    and do not even read the clock; while one is registered, every firing
    adds exactly one message. *)
Theorem autoscroll_append_only (fmt : Z -> string) (evs : list StoryEvent)
    (s : AutoScroll) (c : Clock) :
  messages s `prefix_of` messages (run fmt evs s c).1 /\
  (length (messages (run fmt evs s c).1)
   <= length (messages s) + length (List.filter is_fire evs))%nat /\
  (interval s = false ->
   Forall (fun ev => ev = IntervalFire) evs ->
   run fmt evs s c = (s, c)) /\
  (interval s = true ->
   Forall (fun ev => ev = IntervalFire) evs ->
   length (messages (run fmt evs s c).1) = (length (messages s) + length evs)%nat).
Proof.
  revert s c. induction evs as [|ev rest IH]; intros s c.
  - cbn. repeat split; auto; try lia.
  - rewrite run_story_cons.
    destruct (handle_appends fmt ev s c) as [Hpre Hlen].
    destruct (IH (handle fmt ev s c).1 (handle fmt ev s c).2)
      as (Hpre' & Hlen' & Hoff & Hon).
    split; [etrans; eassumption|]. split.
    { cbn [List.filter]. destruct (is_fire ev); cbn [length]; lia. }
    split.
    + intros Hstopped Hall. apply Forall_cons in Hall as [-> Hall].
      cbn [handle] in *. rewrite Hstopped in *. cbn [fst snd] in *. auto.
    + intros Hrunning Hall. apply Forall_cons in Hall as [-> Hall].
      cbn [handle] in *. rewrite Hrunning in *.
      rewrite interval_callback_fields in *. cbn [fst snd messages interval] in *.
      rewrite (Hon Hrunning Hall), length_app. cbn. lia.
Qed.

Lemma monotone_advance (k : nat) (c : Clock) : monotone c -> monotone (advance k c).
Proof. intros Hmono a b Hab. now apply Hmono. Qed.

(** One event keeps the messages in order of creation and none of them later
    than the next clock reading. *)
Lemma handle_keeps_order (fmt : Z -> string) (ev : StoryEvent)
    (s : AutoScroll) (c : Clock) :
  monotone c ->
  (forall (i j : nat) (a b : MessageOverrides),
     messages s !! i = Some a -> messages s !! j = Some b -> (i < j)%nat ->
     createdAt a <= createdAt b) ->
  (forall a : MessageOverrides,
     a ∈ messages s -> createdAt a <= readings c (taken c)) ->
  monotone (handle fmt ev s c).2 /\
  (forall (i j : nat) (a b : MessageOverrides),
     messages (handle fmt ev s c).1 !! i = Some a ->
     messages (handle fmt ev s c).1 !! j = Some b -> (i < j)%nat ->
     createdAt a <= createdAt b) /\
  (forall a : MessageOverrides,
     a ∈ messages (handle fmt ev s c).1 ->
     createdAt a
     <= readings (handle fmt ev s c).2 (taken (handle fmt ev s c).2)).
Proof.
  intros Hmono Hsorted Hbound. destruct ev; cbn [handle].
  - destruct (interval s); [|cbn [fst snd]; auto].
    rewrite interval_callback_fields. cbn [fst snd messages].
    split; [now apply monotone_advance|].
    pose proof (Hmono (taken c) (S (taken c)) ltac:(lia)) as Hnext.
    pose proof (Hmono (S (taken c)) (taken c + 2)%nat ltac:(lia)) as Hnext'.
    split.
    + intros i j a b Ha Hb Hij.
      apply lookup_snoc_Some in Ha as [[Hi Ha] | [Hi <-]];
        apply lookup_snoc_Some in Hb as [[Hj Hb] | [Hj <-]]; try lia.
      * eapply Hsorted; eassumption.
      * cbn [createdAt]. apply list_elem_of_lookup_2 in Ha.
        specialize (Hbound a Ha). lia.
    + intros a Ha. cbn [advance readings taken].
      apply elem_of_app in Ha as [Ha | Ha].
      * specialize (Hbound a Ha). lia.
      * apply list_elem_of_singleton in Ha as ->. cbn [createdAt]. lia.
  - cbn [fst snd messages]. auto.
Qed.

(** X15.  When the clock does not run backwards, the messages of the
    [AutoScrollComparison] decorator are in order of creation in every state
    it reaches: a message further down the list was never created before one
    further up. *)
Theorem autoscroll_chronological (fmt : Z -> string) (evs : list StoryEvent)
    (c : Clock) :
  monotone c ->
  forall (i j : nat) (a b : MessageOverrides),
    messages (run fmt evs (mount c).1 (mount c).2).1 !! i = Some a ->
    messages (run fmt evs (mount c).1 (mount c).2).1 !! j = Some b ->
    (i < j)%nat ->
    createdAt a <= createdAt b.
Proof.
  intros Hmono.
  assert (forall (s : AutoScroll) (c' : Clock),
            monotone c' ->
            (forall (i j : nat) (a b : MessageOverrides),
               messages s !! i = Some a -> messages s !! j = Some b ->
               (i < j)%nat -> createdAt a <= createdAt b) ->
            (forall a : MessageOverrides,
               a ∈ messages s -> createdAt a <= readings c' (taken c')) ->
            forall (i j : nat) (a b : MessageOverrides),
              messages (run fmt evs s c').1 !! i = Some a ->
              messages (run fmt evs s c').1 !! j = Some b ->
              (i < j)%nat -> createdAt a <= createdAt b) as Hinv.
  { induction evs as [|ev rest IH]; intros s c' Hm Hsorted Hbound.
    - exact Hsorted.
    - rewrite run_story_cons.
      destruct (handle_keeps_order fmt ev s c' Hm Hsorted Hbound)
        as (Hm' & Hsorted' & Hbound').
      now apply IH. }
  assert (forall (i : nat) (a : MessageOverrides),
            messages (mount c).1 !! i = Some a ->
            (i < 8)%nat /\
            createdAt a
            = readings c (taken c + i)%nat - 1000 * 60 * (8 - Z.of_nat i))
    as Hinitial.
  { intros i a. rewrite mount_fields. cbn [fst messages]. intros Ha.
    apply (Array_from_lookup_Some initial_message 1 8 c i a initial_message_clock)
      in Ha as [Hi ->].
    split; [exact Hi|]. rewrite initial_message_fields.
    cbn [createdAt advance readings taken].
    now replace (taken c + 1 * i)%nat with (taken c + i)%nat by lia. }
  apply Hinv.
  - rewrite mount_fields. now apply monotone_advance.
  - intros i j a b Ha Hb Hij.
    apply Hinitial in Ha as [_ ->]. apply Hinitial in Hb as [_ ->].
    pose proof (Hmono (taken c + i)%nat (taken c + j)%nat ltac:(lia)). lia.
  - intros a Ha. apply list_elem_of_lookup_1 in Ha as [i Ha].
    apply Hinitial in Ha as [Hi ->]. rewrite mount_fields.
    cbn [snd advance readings taken].
    pose proof (Hmono (taken c + i)%nat (taken c + 8)%nat ltac:(lia)). lia.
Qed.

End StoriesFacts.

(* ===================================================================== *)
(** ** Instances *)
(* ===================================================================== *)

Lemma accepted_calls_spaced_witness :
  Throttle.spaced 200
    (Throttle.forwarded_times [(0, "👍"); (150, "❤️"); (201, "🎉")]
       (Throttle.run 1%positive 200 [(0, "👍"); (150, "❤️"); (201, "🎉")]
          Throttle.fresh_world).1).
Proof.
  exact (accepted_calls_spaced 1%positive 200
           [(0, "👍"); (150, "❤️"); (201, "🎉")] Throttle.fresh_world eq_refl).
Defined.

Lemma spaced_calls_all_forwarded_witness :
  (Throttle.run 1%positive 200 [(0, "👍"); (200, "❤️"); (450, "🎉")]
     Throttle.fresh_world).1
  = [Throttle.Forwarded; Throttle.Forwarded; Throttle.Forwarded].
Proof.
  refine (proj1 (spaced_calls_all_forwarded 1%positive 200
                   [(0, "👍"); (200, "❤️"); (450, "🎉")] Throttle.fresh_world
                   eq_refl _)).
  cbn. repeat split; discriminate.
Defined.

Lemma quiet_window_witness :
  Throttle.run 1%positive 200 [(10, "❤️"); (100, "🎉"); (199, "🔥")]
    (Throttle.throttled 1%positive 200 "👍" 0 Throttle.fresh_world).2
  = ([Throttle.Dropped; Throttle.Dropped; Throttle.Dropped],
     (Throttle.throttled 1%positive 200 "👍" 0 Throttle.fresh_world).2).
Proof.
  refine (quiet_window 1%positive 200
            {| Throttle.fn := 1%positive; Throttle.lastCall := 0;
               Throttle.delay := 200 |}
            [(10, "❤️"); (100, "🎉"); (199, "🔥")]
            (Throttle.throttled 1%positive 200 "👍" 0 Throttle.fresh_world).2
            eq_refl _).
  repeat (apply List.Forall_cons; [reflexivity|]). apply List.Forall_nil.
Defined.

Lemma first_delay_wins_witness :
  Throttle.run 1%positive 200 [(100, "❤️"); (250, "🎉")]
    (Throttle.throttled 1%positive 200 "👍" 0 Throttle.fresh_world).2
  = Throttle.run 1%positive 5000 [(100, "❤️"); (250, "🎉")]
      (Throttle.throttled 1%positive 200 "👍" 0 Throttle.fresh_world).2.
Proof.
  exact (proj1 (first_delay_wins 1%positive 200 5000
                  {| Throttle.fn := 1%positive; Throttle.lastCall := 0;
                     Throttle.delay := 200 |}
                  [(100, "❤️"); (250, "🎉")]
                  (Throttle.throttled 1%positive 200 "👍" 0 Throttle.fresh_world).2
                  eq_refl)).
Defined.

Lemma callbacks_independent_witness :
  (Throttle.run 2%positive 200 [(50, "❤️")]
     (Throttle.run 1%positive 200 [(0, "👍"); (40, "🎉")] Throttle.fresh_world).2).1
  = (Throttle.run 2%positive 200 [(50, "❤️")] Throttle.fresh_world).1.
Proof.
  refine (proj2 (callbacks_independent 1%positive 2%positive 200 200
                   [(0, "👍"); (40, "🎉")] [(50, "❤️")] Throttle.fresh_world _)).
  discriminate.
Defined.

Lemma click_targets_witness :
  ([1%nat; 2%nat] = [0%nat] /\ [EmojiPicker.OnEmojiSelect "😊"] = [EmojiPicker.OnClose]) \/
  ([1%nat; 2%nat] = [1%nat] /\ [EmojiPicker.OnEmojiSelect "😊"] = []) \/
  (exists (i : nat) (g : string),
      EmojiPicker.emojis !! i = Some g /\
      [EmojiPicker.OnEmojiSelect "😊"] = [EmojiPicker.OnEmojiSelect g] /\
      ([1%nat; 2%nat] = [1%nat; i] \/ [1%nat; 2%nat] = [1%nat; i; 0%nat])).
Proof.
  exact (click_targets
           {| EmojiPicker.isOpen := true;
              EmojiPicker.position := {| EmojiPicker.top := 10; EmojiPicker.left := 20 |} |}
           [EmojiPicker.backdrop;
            EmojiPicker.panel {| EmojiPicker.top := 10; EmojiPicker.left := 20 |}]
           [1%nat; 2%nat] [EmojiPicker.OnEmojiSelect "😊"] eq_refl eq_refl).
Defined.

Lemma buttons_match_palette_witness :
  exists i : nat,
    EmojiPicker.click
      [EmojiPicker.backdrop;
       EmojiPicker.panel {| EmojiPicker.top := 10; EmojiPicker.left := 20 |}]
      [1%nat; i]
    = Some [EmojiPicker.OnEmojiSelect "🔥"].
Proof.
  refine (proj1 (buttons_match_palette
                   {| EmojiPicker.top := 10; EmojiPicker.left := 20 |}) "🔥" _).
  apply (list_elem_of_lookup_2 _ 8%nat). reflexivity.
Defined.

Lemma ticking_clock_monotone : Stories.monotone Stories.ticking_clock.
Proof. intros a b Hab. cbn. lia. Qed.

Lemma default_authors_witness :
  exists m : Stories.MessageOverrides,
    (Stories.Default_messages Stories.ticking_clock).1 !! 8%nat = Some m /\
    Stories.clientId m = "user1".
Proof.
  destruct ((Stories.Default_messages Stories.ticking_clock).1 !! 8%nat)
    as [m|] eqn:Hm; [|vm_compute in Hm; discriminate].
  exists m. split; [reflexivity|].
  apply (default_authors Stories.ticking_clock 8%nat m Hm). reflexivity.
Defined.

Lemma default_chronological_witness :
  exists a b : Stories.MessageOverrides,
    (Stories.Default_messages Stories.ticking_clock).1 !! 3%nat = Some a /\
    (Stories.Default_messages Stories.ticking_clock).1 !! 4%nat = Some b /\
    Stories.createdAt a < Stories.createdAt b.
Proof.
  destruct ((Stories.Default_messages Stories.ticking_clock).1 !! 3%nat)
    as [a|] eqn:Ha; [|vm_compute in Ha; discriminate].
  destruct ((Stories.Default_messages Stories.ticking_clock).1 !! 4%nat)
    as [b|] eqn:Hb; [|vm_compute in Hb; discriminate].
  exists a, b. split; [reflexivity|]. split; [reflexivity|].
  apply (proj1 (default_chronological Stories.ticking_clock ticking_clock_monotone)
           3%nat 4%nat a b Ha Hb).
  lia.
Defined.

Lemma autoscroll_append_only_witness :
  Stories.run (fun _ => "12:00:00") [Stories.IntervalFire; Stories.IntervalFire]
    (Stories.handle (fun _ => "12:00:00") Stories.ClickToggle
       (Stories.mount Stories.ticking_clock).1
       (Stories.mount Stories.ticking_clock).2).1
    (Stories.handle (fun _ => "12:00:00") Stories.ClickToggle
       (Stories.mount Stories.ticking_clock).1
       (Stories.mount Stories.ticking_clock).2).2
  = Stories.handle (fun _ => "12:00:00") Stories.ClickToggle
      (Stories.mount Stories.ticking_clock).1
      (Stories.mount Stories.ticking_clock).2 /\
  length
    (Stories.messages
       (Stories.run (fun _ => "12:00:00")
          [Stories.IntervalFire; Stories.IntervalFire]
          (Stories.mount Stories.ticking_clock).1
          (Stories.mount Stories.ticking_clock).2).1)
  = 10%nat.
Proof.
  split.
  - destruct (autoscroll_append_only (fun _ => "12:00:00")
                [Stories.IntervalFire; Stories.IntervalFire]
                (Stories.handle (fun _ => "12:00:00") Stories.ClickToggle
                   (Stories.mount Stories.ticking_clock).1
                   (Stories.mount Stories.ticking_clock).2).1
                (Stories.handle (fun _ => "12:00:00") Stories.ClickToggle
                   (Stories.mount Stories.ticking_clock).1
                   (Stories.mount Stories.ticking_clock).2).2)
      as (_ & _ & Hstopped & _).
    rewrite Hstopped; [now destruct (Stories.handle _ _ _ _)|reflexivity|].
    repeat (apply List.Forall_cons; [reflexivity|]). apply List.Forall_nil.
  - destruct (autoscroll_append_only (fun _ => "12:00:00")
                [Stories.IntervalFire; Stories.IntervalFire]
                (Stories.mount Stories.ticking_clock).1
                (Stories.mount Stories.ticking_clock).2)
      as (_ & _ & _ & Hrunning).
    rewrite Hrunning; [reflexivity|reflexivity|].
    repeat (apply List.Forall_cons; [reflexivity|]). apply List.Forall_nil.
Defined.

Lemma autoscroll_chronological_witness :
  exists a b : Stories.MessageOverrides,
    Stories.messages
      (Stories.run (fun _ => "12:00:00") [Stories.IntervalFire]
         (Stories.mount Stories.ticking_clock).1
         (Stories.mount Stories.ticking_clock).2).1 !! 7%nat = Some a /\
    Stories.messages
      (Stories.run (fun _ => "12:00:00") [Stories.IntervalFire]
         (Stories.mount Stories.ticking_clock).1
         (Stories.mount Stories.ticking_clock).2).1 !! 8%nat = Some b /\
    Stories.createdAt a <= Stories.createdAt b.
Proof.
  destruct (Stories.messages
              (Stories.run (fun _ => "12:00:00") [Stories.IntervalFire]
                 (Stories.mount Stories.ticking_clock).1
                 (Stories.mount Stories.ticking_clock).2).1 !! 7%nat)
    as [a|] eqn:Ha; [|vm_compute in Ha; discriminate].
  destruct (Stories.messages
              (Stories.run (fun _ => "12:00:00") [Stories.IntervalFire]
                 (Stories.mount Stories.ticking_clock).1
                 (Stories.mount Stories.ticking_clock).2).1 !! 8%nat)
    as [b|] eqn:Hb; [|vm_compute in Hb; discriminate].
  exists a, b. split; [reflexivity|]. split; [reflexivity|].
  apply (autoscroll_chronological (fun _ => "12:00:00") [Stories.IntervalFire]
           Stories.ticking_clock ticking_clock_monotone 7%nat 8%nat a b Ha Hb).
  lia.
Defined.
